(** * irvine-pool-league: the ranking updater (.github/scripts/update-rankings.mjs)

    A shallow embedding of the script that reads match results from the
    comments of an issue, aggregates them into a ranking and renders the
    README, together with the properties its specification states.

    Conventions of the embedding.
    - A JavaScript string is the list of its UTF-16 code units.
    - Counters ([win], [lose], [total], array positions) are exact
      non-negative integers: a JavaScript array holds fewer than 2^32
      elements, far below 2^53 where doubles stop being exact.
    - A win rate is a [number]: [NaN] or an exact rational, which stands
      for the double nearest to it.  The order of the ranking is taken on
      the rationals; the percentage that is printed is computed on the
      doubles, rounding as the program does ([double], [mul]).
    - The API client, the repository coordinates and the issue number the
      module reads from its environment are the collaborator behind
      [listComments]: the outcome of the one request the script makes.
    - A computation returns [None] only where it would leave the fragment
      modelled here (a loop out of fuel, a number whose notation is
      exponential); [main_settles] shows this never happens. *)

From Stdlib Require Import Bool Ascii String NArith ZArith QArith Qround Qpower Lia Lqa.
From Stdlib Require Import DecimalPos List Sorted Permutation.
Import ListNotations.

Local Open Scope nat_scope.
Local Open Scope list_scope.

(* ================================================================== *)
(** * Strings *)

Definition code_unit := N.
Definition jsstring := list code_unit.

(** An ASCII literal as a JavaScript string. *)
Definition js (s : string) : jsstring := map N_of_ascii (list_ascii_of_string s).

Definition in_range (lo hi c : N) : bool := (lo <=? c)%N && (c <=? hi)%N.

Fixpoint jsstring_eqb (a b : jsstring) : bool :=
  match a, b with
  | [], [] => true
  | x :: a', y :: b' => (x =? y)%N && jsstring_eqb a' b'
  | _, _ => false
  end.

(* ================================================================== *)
(** * The regular expression [/(\w+)\s*[>beat]\s*(\w+)/gi] *)

(** [\w]: the basic word characters.  Under [/i] without [/u] no further
    code unit joins the class. *)
Definition is_word (c : code_unit) : bool :=
  in_range 97 122 c || in_range 65 90 c || in_range 48 57 c || (c =? 95)%N.

(** [\s]: WhiteSpace and LineTerminator code points; also what
    [String.prototype.trim] strips. *)
Definition is_space (c : code_unit) : bool :=
  in_range 9 13 c || (c =? 32)%N || (c =? 0xA0)%N || (c =? 0x1680)%N
  || in_range 0x2000 0x200A c || (c =? 0x2028)%N || (c =? 0x2029)%N
  || (c =? 0x202F)%N || (c =? 0x205F)%N || (c =? 0x3000)%N || (c =? 0xFEFF)%N.

(** Canonicalize under [/i]: an ASCII letter is upper-cased; a code unit
    from 128 on never canonicalizes to an ASCII one, so for a class of
    ASCII members it may stay as it is. *)
Definition canonicalize (c : code_unit) : code_unit :=
  if in_range 97 122 c then (c - 32)%N else c.

(** The character class [[>beat]] under [/i]: one code unit out of
    [>], [b], [e], [a], [t], compared after canonicalization. *)
Definition is_sep (c : code_unit) : bool :=
  existsb (N.eqb (canonicalize c)) (map canonicalize (js ">beat")).

Section Matcher.
Variable A : Type.

(** A continuation receives the text the atom consumed and the input
    that remains. *)
Definition cont := jsstring -> jsstring -> option A.

(** [p*], greedy: consume one more code unit first; fall back to the
    continuation at the current position when that fails. *)
Fixpoint star (p : code_unit -> bool) (acc s : jsstring) (k : cont) : option A :=
  match s with
  | c :: s' =>
      if p c then
        match star p (acc ++ [c]) s' k with
        | Some r => Some r
        | None => k acc s
        end
      else k acc s
  | [] => k acc s
  end.

(** [p+], greedy. *)
Definition plus (p : code_unit -> bool) (s : jsstring) (k : cont) : option A :=
  match s with
  | c :: s' => if p c then star p [c] s' k else None
  | [] => None
  end.

(** A single code unit of a class. *)
Definition class (p : code_unit -> bool) (s : jsstring) (k : cont) : option A :=
  match s with
  | c :: s' => if p c then k [c] s' else None
  | [] => None
  end.
End Matcher.

Arguments star {A} p acc s k.
Arguments plus {A} p s k.
Arguments class {A} p s k.

(** What a successful match at a position gives: capture 1, capture 2 and
    the input after the match. *)
Definition captures := (jsstring * jsstring * jsstring)%type.
Definition pattern := jsstring -> option captures.

(** [(\w+)\s*[>beat]\s*(\w+)] anchored at the head of [s]. *)
Definition matchPattern : pattern := fun s =>
  plus is_word s (fun g1 s1 =>
  star is_space [] s1 (fun _ s2 =>
  class is_sep s2 (fun _ s3 =>
  star is_space [] s3 (fun _ s4 =>
  plus is_word s4 (fun g2 s5 =>
  Some (g1, g2, s5)))))).

(** The first position from the head of [s] on at which [re] matches. *)
Fixpoint search (re : pattern) (s : jsstring) : option captures :=
  match re s with
  | Some r => Some r
  | None => match s with [] => None | _ :: s' => search re s' end
  end.

(** [RegExp.prototype.exec] of a global expression: the search starts at
    [lastIndex]; a match moves [lastIndex] to its end, a failure resets
    it to 0.  The result pairs the captures (or null) with the new
    [lastIndex]. *)
Definition exec (re : pattern) (lastIndex : nat) (str : jsstring)
  : option (jsstring * jsstring) * nat :=
  if length str <? lastIndex then (None, 0)
  else match search re (skipn lastIndex str) with
       | Some (g1, g2, rest) => (Some (g1, g2), length str - length rest)
       | None => (None, 0)
       end.

(** [String.prototype.trim]. *)
Fixpoint trimStart (s : jsstring) : jsstring :=
  match s with
  | c :: s' => if is_space c then trimStart s' else s
  | [] => []
  end.

Definition trim (s : jsstring) : jsstring := rev (trimStart (rev (trimStart s))).

(* ================================================================== *)
(** * Match records and the extractor *)

Record Comment := { body : jsstring; created_at : jsstring }.

Record Match := { winner : jsstring; loser : jsstring; date : jsstring }.

(** The [while ((match = matchPattern.exec(body)) !== null)] loop over one
    comment.  The state is the expression's [lastIndex] and the [matches]
    array. *)
Fixpoint while_exec (fuel : nat) (re : pattern) (comment : Comment)
    (lastIndex : nat) (matches : list Match) : option (nat * list Match) :=
  match fuel with
  | O => None
  | S fuel' =>
      match exec re lastIndex (body comment) with
      | (None, lastIndex') => Some (lastIndex', matches)
      | (Some (g1, g2), lastIndex') =>
          while_exec fuel' re comment lastIndex'
            (matches ++ [{| winner := trim g1; loser := trim g2;
                            date := created_at comment |}])
      end
  end.

(** [comments.data.forEach(...)]: the expression object, hence its
    [lastIndex], is shared by all comments. *)
Fixpoint forEach_comment (re : pattern) (comments : list Comment)
    (lastIndex : nat) (matches : list Match) : option (nat * list Match) :=
  match comments with
  | [] => Some (lastIndex, matches)
  | comment :: rest =>
      match while_exec (S (length (body comment))) re comment lastIndex matches with
      | Some (lastIndex', matches') => forEach_comment re rest lastIndex' matches'
      | None => None
      end
  end.

(** An exception value; a completion is a normal return or a throw (for an
    async function: a fulfilled or a rejected promise). *)
Definition Error := jsstring.

Inductive Completion (A : Type) : Type :=
  | Return (a : A)
  | Throw (e : Error).

Arguments Return {A} a.
Arguments Throw {A} e.

(** One call of [console.log] or [console.error] with its arguments. *)
Inductive LogEntry :=
  | ConsoleLog (args : list jsstring)
  | ConsoleError (args : list jsstring).

(** [getMatchResults].  [listComments] is the outcome of the awaited
    [octokit.rest.issues.listComments] call. *)
Definition getMatchResults (listComments : Completion (list Comment))
    (console : list LogEntry) : option (list Match * list LogEntry) :=
  match listComments with
  | Return comments =>
      match forEach_comment matchPattern comments 0 [] with
      | Some (_, matches) => Some (matches, console)
      | None => None
      end
  | Throw error =>
      Some ([], console ++ [ConsoleError [js "Error fetching comments:"; error]])
  end.

(* ================================================================== *)
(** * Objects: the [players] map and what it inherits *)

Module stats.
(** The object [{ win, lose }] stored per player. *)
Record t := { win : N; lose : N }.
End stats.

(** The own properties of [players], in creation order. *)
Definition Players := list (jsstring * stats.t).

(** [players] is created by [{}], so it inherits from [Object.prototype].
    These are the string keys of [Object.prototype]; each holds an object
    (a function, or [Object.prototype] itself for [__proto__]), and that
    object is truthy. *)
Definition Object_prototype_keys : list jsstring :=
  map js [ "constructor"; "__defineGetter__"; "__defineSetter__";
           "hasOwnProperty"; "__lookupGetter__"; "__lookupSetter__";
           "isPrototypeOf"; "propertyIsEnumerable"; "toString"; "valueOf";
           "__proto__"; "toLocaleString" ]%string.

Definition inherited (name : jsstring) : bool :=
  existsb (jsstring_eqb name) Object_prototype_keys.

Inductive field := Win | Lose.

Definition field_eqb (f g : field) : bool :=
  match f, g with
  | Win, Win | Lose, Lose => true
  | _, _ => false
  end.

Definition field_name (f : field) : jsstring :=
  match f with Win => js "win" | Lose => js "lose" end.

(** The part of the global realm the script can reach through [players]:
    the objects held by the keys of [Object.prototype], each named by its
    key.  The realm lists which of them carry an own [win] or [lose]
    property.  Such a property is only written by [++] applied to
    [undefined] or to NaN, so its value is NaN. *)
Definition Realm := list (jsstring * field).

Definition pristine : Realm := [].

Definition has_NaN (realm : Realm) (object : jsstring) (f : field) : bool :=
  existsb (fun '(o, g) => jsstring_eqb object o && field_eqb f g) realm.

Definition set_NaN (realm : Realm) (object : jsstring) (f : field) : Realm :=
  if has_NaN realm object f then realm else realm ++ [(object, f)].

(** What [players[name]] evaluates to. *)
Inductive value :=
  | Undefined
  | NotANumber
  | OwnStats (s : stats.t)
  | Builtin (key : jsstring).

Fixpoint own (players : Players) (name : jsstring) : option stats.t :=
  match players with
  | [] => None
  | (k, s) :: rest => if jsstring_eqb name k then Some s else own rest name
  end.

(** Property lookup: an own property first, then [Object.prototype]: its
    builtin keys, and [win] or [lose] once they have been written there. *)
Definition get (players : Players) (realm : Realm) (name : jsstring) : value :=
  match own players name with
  | Some s => OwnStats s
  | None =>
      if inherited name then Builtin name
      else if existsb (fun f => jsstring_eqb name (field_name f)
                                && has_NaN realm (js "__proto__") f) [Win; Lose]
           then NotANumber
           else Undefined
  end.

Definition truthy (v : value) : bool :=
  match v with
  | OwnStats _ | Builtin _ => true
  | Undefined | NotANumber => false
  end.

(** [if (!players[name]) players[name] = { win: 0, lose: 0 }]. *)
Definition initialize (players : Players) (realm : Realm) (name : jsstring) : Players :=
  if negb (truthy (get players realm name))
  then players ++ [(name, {| stats.win := 0; stats.lose := 0 |})]
  else players.

Definition bump (f : field) (s : stats.t) : stats.t :=
  match f with
  | Win => {| stats.win := stats.win s + 1; stats.lose := stats.lose s |}
  | Lose => {| stats.win := stats.win s; stats.lose := stats.lose s + 1 |}
  end.

Fixpoint update_own (players : Players) (name : jsstring) (f : field) : Players :=
  match players with
  | [] => []
  | (k, s) :: rest =>
      if jsstring_eqb name k then (k, bump f s) :: rest
      else (k, s) :: update_own rest name f
  end.

(** [players[name].win++] and [players[name].lose++].  On an own entry the
    counter goes up by one.  On a builtin the field is [undefined] or NaN,
    and [++] stores NaN in it.  On [undefined] or NaN the property access
    throws a TypeError. *)
Definition increment (players : Players) (realm : Realm) (name : jsstring) (f : field)
  : Completion Players * Realm :=
  match get players realm name with
  | OwnStats _ => (Return (update_own players name f), realm)
  | Builtin key => (Return players, set_NaN realm key f)
  | Undefined | NotANumber => (Throw (js "TypeError"), realm)
  end.

(* ================================================================== *)
(** * Numbers *)

(** A JavaScript number where the script may produce a fraction: NaN or a
    finite value, kept as an exact rational. *)
Inductive number :=
  | NaN
  | Num (q : Q).

(** [x !== y] on numbers: NaN differs from everything. *)
Definition strict_neq (x y : number) : bool :=
  match x, y with
  | Num a, Num b => negb (Qeq_bool a b)
  | _, _ => true
  end.

Definition sub (x y : number) : number :=
  match x, y with
  | Num a, Num b => Num (a - b)
  | _, _ => NaN
  end.

(** The arithmetic of doubles.  [double q] is the double nearest to the
    rational [q], a tie going to the even significand: with [e] the
    exponent of [q], the 53-bit significand is [q * 2^(52 - e)] rounded to
    an integer.  The range of the exponent is not modelled: every number
    the script computes is 0 or lies between 2^-32 and 100, far from the
    smallest and the largest double. *)
Definition exponent (q : Q) : Z :=
  if Qle_bool 1 q then Z.log2 (Qfloor q) else (- Z.log2_up (Qceiling (/ q)))%Z.

Definition round_half_even (r : Q) : Z :=
  let f := Qfloor r in
  match (r - inject_Z f ?= 1 # 2)%Q with
  | Lt => f
  | Gt => (f + 1)%Z
  | Eq => if Z.even f then f else (f + 1)%Z
  end.

Definition double_positive (q : Q) : Q :=
  let e := exponent q in
  (inject_Z (round_half_even (q * 2 ^ (52 - e))) * 2 ^ (e - 52))%Q.

Definition double (q : Q) : Q :=
  match (q ?= 0)%Q with
  | Eq => 0%Q
  | Gt => double_positive q
  | Lt => (- double_positive (- q))%Q
  end.

(** [x * y]: the product of the doubles the two rationals stand for,
    rounded to a double. *)
Definition mul (x y : number) : number :=
  match x, y with
  | Num a, Num b => Num (double (double a * double b))
  | _, _ => NaN
  end.

Definition of_N (n : N) : number := Num (inject_Z (Z.of_N n)).

(** [w / t] for counters [w <= t]: a zero denominator only arises as 0/0,
    which is NaN. *)
Definition div_counters (w t : N) : number :=
  if (t =? 0)%N then NaN else Num (inject_Z (Z.of_N w) / inject_Z (Z.of_N t)).

(* ================================================================== *)
(** * The aggregator *)

Record PlayerStat := {
  player : jsstring;
  win : N;
  lose : N;
  total : N;
  winRate : number
}.

(** The callback of [matches.forEach]. *)
Definition record_match (players : Players) (realm : Realm) (m : Match)
  : Completion Players * Realm :=
  let players := initialize players realm (winner m) in
  let players := initialize players realm (loser m) in
  match increment players realm (winner m) Win with
  | (Throw e, realm) => (Throw e, realm)
  | (Return players, realm) => increment players realm (loser m) Lose
  end.

Fixpoint forEach_match (matches : list Match) (players : Players) (realm : Realm)
  : Completion Players * Realm :=
  match matches with
  | [] => (Return players, realm)
  | m :: rest =>
      match record_match players realm m with
      | (Throw e, realm') => (Throw e, realm')
      | (Return players', realm') => forEach_match rest players' realm'
      end
  end.

(** An array index: the canonical decimal notation of an integer below
    2^32 - 1. *)
Definition digit_value (c : code_unit) : option N :=
  if in_range 48 57 c then Some (c - 48)%N else None.

Fixpoint decimal_value (acc : N) (s : jsstring) : option N :=
  match s with
  | [] => Some acc
  | c :: s' =>
      match digit_value c with
      | Some d => decimal_value (10 * acc + d)%N s'
      | None => None
      end
  end.

Definition array_index (s : jsstring) : option N :=
  match s with
  | [] => None
  | c :: s' =>
      if (c =? 48)%N && negb (Nat.eqb (length s') 0) then None
      else match decimal_value 0 s with
           | Some n => if (n <? 2 ^ 32 - 1)%N then Some n else None
           | None => None
           end
  end.

Definition is_array_index (s : jsstring) : bool :=
  match array_index s with Some _ => true | None => false end.

Definition index_of (s : jsstring) : N :=
  match array_index s with Some n => n | None => 0%N end.

Fixpoint insert_index {V : Type} (e : jsstring * V) (l : list (jsstring * V))
  : list (jsstring * V) :=
  match l with
  | [] => [e]
  | e' :: l' =>
      if (index_of (fst e) <=? index_of (fst e'))%N then e :: l
      else e' :: insert_index e l'
  end.

(** [Object.entries]: the own properties, array-index keys first in
    ascending numeric order, then the other keys in creation order. *)
Definition Object_entries {V : Type} (o : list (jsstring * V)) : list (jsstring * V) :=
  fold_right insert_index [] (filter (fun e => is_array_index (fst e)) o)
  ++ filter (fun e => negb (is_array_index (fst e))) o.

(** The callback of [.map] in [calculateRankings]. *)
Definition to_stat (entry : jsstring * stats.t) : PlayerStat :=
  let (name, stats) := entry in
  {| player := name;
     win := stats.win stats;
     lose := stats.lose stats;
     total := stats.win stats + stats.lose stats;
     winRate := div_counters (stats.win stats) (stats.win stats + stats.lose stats) |}.

(** The comparator handed to [.sort]. *)
Definition compareFn (a b : PlayerStat) : number :=
  if strict_neq (winRate b) (winRate a) then sub (winRate b) (winRate a)
  else sub (of_N (win b)) (of_N (win a)).

(** [Array.prototype.sort] with a comparator: a stable sort; [x] goes
    after [y] when the comparator is positive on [(x, y)], and a NaN from
    the comparator counts as +0.  For a comparator that orders the
    elements consistently every stable sort returns the same array;
    insertion is the one written here. *)
Definition positive (v : number) : bool :=
  match v with
  | Num q => negb (Qle_bool q 0)
  | NaN => false
  end.

Fixpoint sort_insert {T : Type} (cmp : T -> T -> number) (x : T) (l : list T) : list T :=
  match l with
  | [] => [x]
  | y :: l' => if positive (cmp x y) then y :: sort_insert cmp x l' else x :: l
  end.

Fixpoint Array_sort {T : Type} (cmp : T -> T -> number) (l : list T) : list T :=
  match l with
  | [] => []
  | x :: l' => sort_insert cmp x (Array_sort cmp l')
  end.

(** [calculateRankings]: the result [{ rankings, matches }], or the
    exception, and the realm it leaves. *)
Definition calculateRankings (matches : list Match) (realm : Realm)
  : Completion (list PlayerStat * list Match) * Realm :=
  match forEach_match matches [] realm with
  | (Throw e, realm') => (Throw e, realm')
  | (Return players, realm') =>
      (Return (Array_sort compareFn (map to_stat (Object_entries players)), matches),
       realm')
  end.

(* ================================================================== *)
(** * The report *)

(** The decimal notation of a non-negative integer, as string
    interpolation prints a counter. *)
Fixpoint digits (u : Decimal.uint) : jsstring :=
  match u with
  | Decimal.Nil => []
  | Decimal.D0 u => 48%N :: digits u
  | Decimal.D1 u => 49%N :: digits u
  | Decimal.D2 u => 50%N :: digits u
  | Decimal.D3 u => 51%N :: digits u
  | Decimal.D4 u => 52%N :: digits u
  | Decimal.D5 u => 53%N :: digits u
  | Decimal.D6 u => 54%N :: digits u
  | Decimal.D7 u => 55%N :: digits u
  | Decimal.D8 u => 56%N :: digits u
  | Decimal.D9 u => 57%N :: digits u
  end.

Definition N_toString (n : N) : jsstring := digits (N.to_uint n).

(** [Number.prototype.toFixed(1)].  Let [n] be the integer for which
    [n / 10 - x] is closest to zero, the larger one of two; its digits,
    padded to two, get the point before the last one.  From 10^21 on the
    result is the exponential notation, which is not modelled. *)
Definition toFixed1 (x : number) : option jsstring :=
  match x with
  | NaN => Some (js "NaN")
  | Num q =>
      let s := if Qle_bool 0 q then [] else js "-" in
      let x := if Qle_bool 0 q then q else (- q)%Q in
      if Qle_bool (inject_Z (10 ^ 21)) x then None
      else
        let n := Qfloor (x * inject_Z 10 + (1 # 2))%Q in
        let m := N_toString (Z.to_N n) in
        let m := if length m <=? 1 then repeat 48%N (2 - length m) ++ m else m in
        let k := length m in
        Some (s ++ firstn (k - 1) m ++ js "." ++ skipn (k - 1) m)
  end.

(** How [fs.writeFileSync] can fail.  The file is opened with the flag
    [w], which empties it, and then written: a failure to open leaves the
    file as it was; a failure while writing leaves what reached the disk,
    nothing or a part of the text ([on_disk]: the content as it reads
    back). *)
Inductive WriteFailure :=
  | OpenFailed (e : Error)
  | WriteFailed (e : Error) (on_disk : jsstring).

(** What the script takes from its host: the locale rendering of a date,
    the current time as [toLocaleString] prints it, and whether and how
    [fs.writeFileSync] fails. *)
Record Host := {
  toLocaleDateString : jsstring -> jsstring;
  now_toLocaleString : jsstring;
  writeFileSync_error : option WriteFailure
}.

(** [Array.prototype.join]. *)
Definition join (sep : jsstring) (l : list jsstring) : jsstring :=
  match l with
  | [] => []
  | x :: l' => x ++ flat_map (fun y => sep ++ y) l'
  end.

Definition newline : jsstring := [10%N].

(** [array.map((element, index) => ...)] *)
Fixpoint map_index {T U : Type} (f : T -> nat -> U) (index : nat) (l : list T) : list U :=
  match l with
  | [] => []
  | x :: l' => f x index :: map_index f (S index) l'
  end.

Fixpoint all_some {T : Type} (l : list (option T)) : option (list T) :=
  match l with
  | [] => Some []
  | None :: _ => None
  | Some x :: l' =>
      match all_some l' with
      | Some r => Some (x :: r)
      | None => None
      end
  end.

(** One row of the ranking table. *)
Definition ranking_row (p : PlayerStat) (index : nat) : option jsstring :=
  match toFixed1 (mul (winRate p) (of_N 100)) with
  | None => None
  | Some rate =>
      Some (js "| " ++ N_toString (N.of_nat (index + 1)) ++ js " | " ++ player p
            ++ js " | " ++ N_toString (win p) ++ js " | " ++ N_toString (lose p)
            ++ js " | " ++ N_toString (total p) ++ js " | " ++ rate ++ js "% |")
  end.

Definition ranking_rows (rankings : list PlayerStat) : option (list jsstring) :=
  all_some (map_index ranking_row 0 rankings).

(** [matches.slice(-10).reverse()]. *)
Definition slice_last (n : nat) {T : Type} (l : list T) : list T :=
  skipn (length l - n) l.

Definition matchHistory (matches : list Match) : list Match :=
  rev (slice_last 10 matches).

(** One row of the recent-matches table. *)
Definition history_row (h : Host) (m : Match) : jsstring :=
  js "| " ++ toLocaleDateString h (date m) ++ js " | " ++ winner m ++ js " vs "
  ++ loser m ++ js " | " ++ winner m ++ js " |".

Definition history_rows (h : Host) (matches : list Match) : list jsstring :=
  map (history_row h) (matchHistory matches).

Definition ranking_header : list jsstring :=
  [ js "# irvine-pool-league " ++ [0xD83C; 0xDFB1]%N;
    [];
    js "## Current Rankings";
    [];
    js "| Rank | Player | Wins | Losses | Total | Win Rate |";
    js "|------|--------|------|--------|-------|----------|" ].

Definition history_header : list jsstring :=
  [ [];
    js "## Recent Match Records";
    [];
    js "| Date | Match | Winner |";
    js "|------|------|--------|" ].

Definition instructions : list jsstring :=
  [ [];
    js "## How to record match results";
    [];
    js "1. Go to [Match Result Recording Issue](../../issues/1)";
    js "2. Enter the match results in the comment, format: `PlayerA > PlayerB` or `PlayerA beat PlayerB`";
    js "3. The system will automatically update the rankings";
    [];
    js "### Example:";
    js "- `Thomas > Raymond`";
    js "- `Thomas beat Raymond`";
    js "- `Jerry > Kyle`";
    [];
    js "---" ].

Definition footer (h : Host) : list jsstring :=
  [ js "*Rankings are updated automatically by GitHub Actions | Last updated: "
    ++ now_toLocaleString h ++ js "*";
    [] ].

(** [generateReadme]: the template literal, line by line. *)
Definition generateReadme (h : Host) (rankings : list PlayerStat) (matches : list Match)
  : option jsstring :=
  match ranking_rows rankings with
  | None => None
  | Some rows =>
      Some (join newline
              (ranking_header
               ++ [join newline rows]
               ++ history_header
               ++ [join newline (history_rows h matches)]
               ++ instructions
               ++ footer h))
  end.

(* ================================================================== *)
(** * The run *)

(** The state the script acts on: what was printed, the files on disk and
    the global realm. *)
Record World := {
  console : list LogEntry;
  files : list (jsstring * jsstring);
  globals : Realm
}.

Fixpoint write_file (name content : jsstring) (fs : list (jsstring * jsstring))
  : list (jsstring * jsstring) :=
  match fs with
  | [] => [(name, content)]
  | (n, c) :: fs' =>
      if jsstring_eqb name n then (n, content) :: fs'
      else (n, c) :: write_file name content fs'
  end.

Definition log (w : World) (line : jsstring) : World :=
  {| console := console w ++ [ConsoleLog [line]]; files := files w; globals := globals w |}.

(** [main]: how the promise settles and the world it leaves. *)
Definition main (h : Host) (listComments : Completion (list Comment)) (w : World)
  : option (Completion unit * World) :=
  let w := log w (js "Start updating rankings...") in
  match getMatchResults listComments (console w) with
  | None => None
  | Some (matches, console') =>
      let w := {| console := console'; files := files w; globals := globals w |} in
      let w := log w (js "Found " ++ N_toString (N.of_nat (length matches))
                      ++ js " match records") in
      if Nat.eqb (length matches) 0 then
        Some (Return tt, log w (js "No match records found, skipping update"))
      else
        match calculateRankings matches (globals w) with
        | (Throw e, realm) =>
            Some (Throw e, {| console := console w; files := files w; globals := realm |})
        | (Return (rankings, _), realm) =>
            let w := {| console := console w; files := files w; globals := realm |} in
            match generateReadme h rankings matches with
            | None => None
            | Some readme =>
                match writeFileSync_error h with
                | Some (OpenFailed e) => Some (Throw e, w)
                | Some (WriteFailed e on_disk) =>
                    Some (Throw e,
                          {| console := console w;
                             files := write_file (js "README.md") on_disk (files w);
                             globals := globals w |})
                | None =>
                    let w := {| console := console w;
                                files := write_file (js "README.md") readme (files w);
                                globals := globals w |} in
                    Some (Return tt, log w (js "README.md updated"))
                end
            end
        end
  end.

(** [main().catch(console.error)]: a rejection is printed; the process
    ends normally either way. *)
Definition script (h : Host) (listComments : Completion (list Comment)) (w : World)
  : option World :=
  match main h listComments w with
  | None => None
  | Some (Return _, w') => Some w'
  | Some (Throw e, w') =>
      Some {| console := console w' ++ [ConsoleError [e]];
              files := files w'; globals := globals w' |}
  end.

(* ================================================================== *)
(** * The separator as the specification words it *)

Section SpecPattern.
Variable A : Type.

(** A literal word, compared ignoring case. *)
Fixpoint literal_ci (w s : jsstring) (k : jsstring -> option A) : option A :=
  match w with
  | [] => k s
  | c :: w' =>
      match s with
      | d :: s' =>
          if (canonicalize d =? canonicalize c)%N then literal_ci w' s' k else None
      | [] => None
      end
  end.

(** The alternation [>|beat]: the first alternative that lets the rest
    of the pattern match. *)
Definition spec_separator (s : jsstring) (k : jsstring -> option A) : option A :=
  match literal_ci (js ">") s k with
  | Some r => Some r
  | None => literal_ci (js "beat") s k
  end.
End SpecPattern.

Arguments literal_ci {A} w s k.
Arguments spec_separator {A} s k.

(** The pattern of the specification: a token, the literal [>] or the
    word [beat] in any case, a token, with optional white space around
    the separator: [(\w+)\s*(?:>|beat)\s*(\w+)] under [/gi]. *)
Definition specPattern : pattern := fun s =>
  plus is_word s (fun g1 s1 =>
  star is_space [] s1 (fun _ s2 =>
  spec_separator s2 (fun s3 =>
  star is_space [] s3 (fun _ s4 =>
  plus is_word s4 (fun g2 s5 =>
  Some (g1, g2, s5)))))).

(* ================================================================== *)
(** * Notions the statements use: the extractor *)

(** The two properties of an expression the extraction loop relies on: a
    match is never empty, and both captures are non-empty runs of word
    characters. *)
Definition productive (re : pattern) : Prop :=
  forall s g1 g2 rest, re s = Some (g1, g2, rest) ->
    exists m, m <> [] /\ s = m ++ rest.

Definition word_captures (re : pattern) : Prop :=
  forall s g1 g2 rest, re s = Some (g1, g2, rest) ->
    (g1 <> [] /\ forallb is_word g1 = true) /\ (g2 <> [] /\ forallb is_word g2 = true).

(** [m] is a record the loop builds from a match of [re] in the body of
    [comment]. *)
Definition extracted_from (re : pattern) (comment : Comment) (m : Match) : Prop :=
  date m = created_at comment
  /\ exists g1 g2 lastIndex lastIndex',
       exec re lastIndex (body comment) = (Some (g1, g2), lastIndex')
       /\ winner m = trim g1 /\ loser m = trim g2.

(** A player name as the expression captures it. *)
Definition token (s : jsstring) : Prop := s <> [] /\ forallb is_word s = true.

(** The records [getMatchResults] returns, apart from what it prints. *)
Definition extracted (listComments : Completion (list Comment)) : option (list Match) :=
  option_map fst (getMatchResults listComments []).

(* ================================================================== *)
(** * Notions the statements use: the aggregator *)

(** [players[name]] is truthy: [name] is an own key or a key of
    [Object.prototype]. *)
Definition known (players : Players) (name : jsstring) : bool :=
  match own players name with
  | Some _ => true
  | None => inherited name
  end.

(** What one match does to the own entries of [players]. *)
Definition credited (players : Players) (m : Match) : Players :=
  update_own
    (update_own
       (initialize (initialize players pristine (winner m)) pristine (loser m))
       (winner m) Win)
    (loser m) Lose.

(** What [++] does to the realm: nothing for an own entry; for a builtin
    its counter becomes NaN. *)
Definition touch (players : Players) (realm : Realm) (name : jsstring) (f : field) : Realm :=
  match own players name with
  | Some _ => realm
  | None => set_NaN realm name f
  end.

Definition bump_if (b : bool) (f : field) (s : stats.t) : stats.t :=
  if b then bump f s else s.

(** The own entries of [players] once every match has been recorded. *)
Definition players_of (matches : list Match) : Players :=
  fold_left credited matches [].

(** No own key of [players] is a key of [Object.prototype]. *)
Definition own_plain (players : Players) : Prop :=
  forall k s, own players k = Some s -> inherited k = false.

(** The [win] counters, or the [lose] counters, of the own entries added
    up. *)
Definition field_of (f : field) (s : stats.t) : N :=
  match f with Win => stats.win s | Lose => stats.lose s end.

Definition field_sum (f : field) (players : Players) : N :=
  fold_right N.add 0%N (map (fun e => field_of f (snd e)) players).

(** How many of [matches] the player [name] won, and how many it lost. *)
Definition count_wins (name : jsstring) (matches : list Match) : N :=
  N.of_nat (length (filter (fun m => jsstring_eqb name (winner m)) matches)).

Definition count_losses (name : jsstring) (matches : list Match) : N :=
  N.of_nat (length (filter (fun m => jsstring_eqb name (loser m)) matches)).

(** [name] is the winner or the loser of one of [matches]. *)
Definition appears (name : jsstring) (matches : list Match) : Prop :=
  exists m, In m matches /\ (winner m = name \/ loser m = name).

(** No name in [matches] is a key of [Object.prototype]. *)
Definition plain_names (matches : list Match) : Prop :=
  forall m, In m matches -> inherited (winner m) = false /\ inherited (loser m) = false.

(** The matches whose winner, or loser, gets an own entry in [players]. *)
Definition counted_wins (matches : list Match) : nat :=
  length (filter (fun m => negb (inherited (winner m))) matches).

Definition counted_losses (matches : list Match) : nat :=
  length (filter (fun m => negb (inherited (loser m))) matches).

(** The wins, and the losses, of a ranking added up. *)
Definition sum_wins (rankings : list PlayerStat) : N :=
  fold_right N.add 0%N (map win rankings).

Definition sum_losses (rankings : list PlayerStat) : N :=
  fold_right N.add 0%N (map lose rankings).

(** The win rate is a number, not NaN. *)
Definition rated (p : PlayerStat) : Prop := exists q, winRate p = Num q.

(** The order of the ranking: a higher win rate first; at equal win rates
    the player with more wins first. *)
Definition ranks_before (a b : PlayerStat) : Prop :=
  exists qa qb,
    winRate a = Num qa /\ winRate b = Num qb
    /\ (Qlt qb qa \/ (Qeq qa qb /\ N.le (win b) (win a))).

(* ================================================================== *)
(** * Notions the statements use: the report *)

(** The relative error of rounding to a double: one part in 2^53. *)
Definition eps : Q := 1 # 9007199254740992.

Definition is_digit (c : code_unit) : bool := in_range 48 57 c.

(* ================================================================== *)
(** * Inputs the statements evaluate *)

(** A comment in the format the generated README documents. *)
Definition beat_comment : Comment :=
  {| body := js "Thomas beat Raymond"; created_at := js "2024-05-01T18:30:00Z" |}.

(** A comment whose winner is named like a key of [Object.prototype], and
    the record the extractor builds from it. *)
Definition constructor_comment : Comment :=
  {| body := js "constructor > Bob"; created_at := js "2024-05-01T18:30:00Z" |}.

Definition constructor_match : Match :=
  {| winner := js "constructor"; loser := js "Bob"; date := js "2024-05-01T18:30:00Z" |}.

(* ================================================================== *)
(** * Notions the statements use: comments in the documented format *)

(** The records the loop finds in one comment scanned on its own, from
    [lastIndex] 0. *)
Definition records_of (re : pattern) (comment : Comment) : option (list Match) :=
  option_map snd (while_exec (S (length (body comment))) re comment 0 []).

(** [rest] is empty or starts with a code unit outside the class [p]: a
    greedy run of [p] ends here. *)
Definition stops (p : code_unit -> bool) (rest : jsstring) : bool :=
  match rest with
  | [] => true
  | c :: _ => negb (p c)
  end.

(** One result written as [A > B]: the two names, the white space around
    the [>], and the text up to the next result. *)
Record Line := {
  line_winner : jsstring;
  before_gt : jsstring;
  after_gt : jsstring;
  line_loser : jsstring;
  separator : jsstring
}.

Definition render (l : Line) : jsstring :=
  line_winner l ++ before_gt l ++ js ">" ++ after_gt l ++ line_loser l ++ separator l.

(** The names are tokens, around the [>] there is white space only, and
    the text between two results holds no word character. *)
Definition line_ok (l : Line) : Prop :=
  token (line_winner l) /\ token (line_loser l)
  /\ forallb is_space (before_gt l) = true
  /\ forallb is_space (after_gt l) = true
  /\ forallb (fun c => negb (is_word c)) (separator l) = true.

(** Every result is well formed, and only the last one may lack a
    separator. *)
Fixpoint lines_ok (lines : list Line) : Prop :=
  match lines with
  | [] => True
  | l :: rest => line_ok l /\ (separator l = [] -> rest = []) /\ lines_ok rest
  end.

Definition record_of_line (created : jsstring) (l : Line) : Match :=
  {| winner := line_winner l; loser := line_loser l; date := created |}.

(* ================================================================== *)
(** * Notions the statements use: ties, and files *)

(** Two entries the comparator does not tell apart: the same win rate and
    the same number of wins. *)
Definition tied (a b : PlayerStat) : bool :=
  match winRate a, winRate b with
  | Num qa, Num qb => Qeq_bool qa qb && (win a =? win b)%N
  | _, _ => false
  end.

(** How often [name] is the winner ([Win]) or the loser ([Lose]). *)
Definition count_field (f : field) (name : jsstring) (matches : list Match) : N :=
  match f with
  | Win => count_wins name matches
  | Lose => count_losses name matches
  end.


(* ================================================================== *)
(** * Notions the statements use: the order of first appearance *)

(** The names of the matches in the order the loop meets them: of each
    match the winner, then the loser. *)
Definition names_of (matches : list Match) : list jsstring :=
  flat_map (fun m => [winner m; loser m]) matches.

(** Every name once, at the place of its first occurrence. *)
Fixpoint first_occurrences (names : list jsstring) : list jsstring :=
  match names with
  | [] => []
  | n :: rest => n :: filter (fun k => negb (jsstring_eqb k n)) (first_occurrences rest)
  end.

Definition mem (k : jsstring) (keys : list jsstring) : bool :=
  existsb (jsstring_eqb k) keys.

(** What [if (!players[n]) players[n] = ...] does to the list of own keys. *)
Definition add_key (keys : list jsstring) (n : jsstring) : list jsstring :=
  if mem n keys || inherited n then keys else keys ++ [n].

(* ================================================================== *)
(** * Facts about strings and character classes *)

Lemma jsstring_eqb_eq (a b : jsstring) : jsstring_eqb a b = true <-> a = b.
Proof.
  revert b; induction a as [|x a IH]; intros [|y b]; simpl;
    try (split; [discriminate|discriminate]).
  - split; reflexivity.
  - rewrite andb_true_iff, N.eqb_eq, IH. split.
    + intros [-> ->]. reflexivity.
    + intros H. injection H as -> ->. auto.
Qed.

Lemma jsstring_eqb_refl (a : jsstring) : jsstring_eqb a a = true.
Proof. now apply jsstring_eqb_eq. Qed.

Lemma jsstring_eqb_neq (a b : jsstring) : jsstring_eqb a b = false <-> a <> b.
Proof.
  split.
  - intros H E. apply jsstring_eqb_eq in E. congruence.
  - intros H. destruct (jsstring_eqb a b) eqn:E; [|reflexivity].
    apply jsstring_eqb_eq in E. contradiction.
Qed.

(** Boolean tests on code units, turned into arithmetic. *)
Ltac unbool :=
  repeat match goal with
  | H : _ || _ = true |- _ => apply orb_true_iff in H; destruct H as [H|H]
  | H : _ && _ = true |- _ => apply andb_true_iff in H; destruct H as [? H]
  | H : (_ <=? _)%N = true |- _ => apply N.leb_le in H
  | H : (_ =? _)%N = true |- _ => apply N.eqb_eq in H
  end.

Lemma word_not_space (c : code_unit) : is_word c = true -> is_space c = false.
Proof.
  intros Hw. apply not_true_is_false. intros Hs.
  unfold is_word, is_space, in_range in *. unbool; lia.
Qed.

Lemma trimStart_no_space (s : jsstring) :
  Forall (fun c => is_space c = false) s -> trimStart s = s.
Proof.
  intros H. destruct H as [|c s Hc _]; [reflexivity|].
  simpl. now rewrite Hc.
Qed.

(** Trimming leaves a string of word characters as it is. *)
Lemma trim_word (s : jsstring) : forallb is_word s = true -> trim s = s.
Proof.
  intros H.
  assert (Hs : Forall (fun c => is_space c = false) s).
  { apply Forall_forall. intros c Hc. apply word_not_space.
    rewrite forallb_forall in H. now apply H. }
  unfold trim. rewrite (trimStart_no_space s Hs).
  rewrite trimStart_no_space by now apply Forall_rev.
  apply rev_involutive.
Qed.

(* ================================================================== *)
(** * What a match of the expression looks like *)

Section MatcherFacts.
Context {A : Type}.

Lemma star_inv (p : code_unit -> bool) (s acc : jsstring) (k : cont A) (r : A) :
  star p acc s k = Some r ->
  exists m rest, s = m ++ rest /\ forallb p m = true /\ k (acc ++ m) rest = Some r.
Proof.
  revert acc. induction s as [|c s IH]; intros acc H; simpl in H.
  - exists [], []. rewrite !app_nil_r. auto.
  - destruct (p c) eqn:Hc.
    + destruct (star p (acc ++ [c]) s k) eqn:Hs.
      * injection H as <-. apply IH in Hs as (m & rest & -> & Hm & Hk).
        exists (c :: m), rest. simpl. rewrite Hc, Hm.
        rewrite <- app_assoc in Hk. auto.
      * exists [], (c :: s). rewrite !app_nil_r. auto.
    + exists [], (c :: s). rewrite !app_nil_r. auto.
Qed.

Lemma plus_inv (p : code_unit -> bool) (s : jsstring) (k : cont A) (r : A) :
  plus p s k = Some r ->
  exists m rest,
    s = m ++ rest /\ m <> [] /\ forallb p m = true /\ k m rest = Some r.
Proof.
  destruct s as [|c s]; simpl; [discriminate|].
  destruct (p c) eqn:Hc; [|discriminate].
  intros H. apply star_inv in H as (m & rest & -> & Hm & Hk).
  exists (c :: m), rest. simpl. rewrite Hc, Hm. repeat split; auto. discriminate.
Qed.

Lemma class_inv (p : code_unit -> bool) (s : jsstring) (k : cont A) (r : A) :
  class p s k = Some r ->
  exists c rest, s = c :: rest /\ p c = true /\ k [c] rest = Some r.
Proof.
  destruct s as [|c s]; simpl; [discriminate|].
  destruct (p c) eqn:Hc; [|discriminate].
  intros H. exists c, s. auto.
Qed.

Lemma literal_ci_inv (w s : jsstring) (k : jsstring -> option A) (r : A) :
  literal_ci w s k = Some r ->
  exists m rest, s = m ++ rest /\ length m = length w /\ k rest = Some r.
Proof.
  revert s. induction w as [|c w IH]; intros s H; simpl in H.
  - exists [], s. auto.
  - destruct s as [|d s]; [discriminate|].
    destruct (canonicalize d =? canonicalize c)%N; [|discriminate].
    apply IH in H as (m & rest & -> & Hl & Hk).
    exists (d :: m), rest. simpl. auto.
Qed.
End MatcherFacts.

Lemma matchPattern_inv (s g1 g2 rest : jsstring) :
  matchPattern s = Some (g1, g2, rest) ->
  exists sp1 c sp2,
    s = g1 ++ sp1 ++ [c] ++ sp2 ++ g2 ++ rest
    /\ g1 <> [] /\ forallb is_word g1 = true
    /\ forallb is_space sp1 = true /\ is_sep c = true /\ forallb is_space sp2 = true
    /\ g2 <> [] /\ forallb is_word g2 = true.
Proof.
  unfold matchPattern. intros H.
  apply plus_inv in H as (m1 & r1 & -> & Hn1 & Hw1 & H).
  apply star_inv in H as (sp1 & r2 & -> & Hs1 & H).
  apply class_inv in H as (c & r3 & -> & Hc & H).
  apply star_inv in H as (sp2 & r4 & -> & Hs2 & H).
  apply plus_inv in H as (m2 & r5 & -> & Hn2 & Hw2 & H).
  injection H as <- <- <-.
  exists sp1, c, sp2. simpl. repeat split; auto.
Qed.

Lemma matchPattern_productive : productive matchPattern.
Proof.
  intros s g1 g2 rest H.
  apply matchPattern_inv in H as (sp1 & c & sp2 & -> & Hn & _).
  exists (g1 ++ sp1 ++ [c] ++ sp2 ++ g2). split.
  - destruct g1; [contradiction|discriminate].
  - now rewrite <- !app_assoc.
Qed.

Lemma matchPattern_word_captures : word_captures matchPattern.
Proof.
  intros s g1 g2 rest H.
  apply matchPattern_inv in H as (sp1 & c & sp2 & _ & ? & ? & _ & _ & _ & ? & ?).
  auto.
Qed.

Lemma specPattern_inv (s g1 g2 rest : jsstring) :
  specPattern s = Some (g1, g2, rest) ->
  exists mid,
    s = g1 ++ mid ++ g2 ++ rest
    /\ g1 <> [] /\ forallb is_word g1 = true
    /\ g2 <> [] /\ forallb is_word g2 = true.
Proof.
  unfold specPattern. intros H.
  apply plus_inv in H as (m1 & r1 & -> & Hn1 & Hw1 & H).
  apply star_inv in H as (sp1 & r2 & -> & Hs1 & H).
  assert (exists sep r3, r2 = sep ++ r3 /\
            star is_space [] r3 (fun _ s4 =>
              plus is_word s4 (fun g2 s5 => Some (m1, g2, s5))) = Some (g1, g2, rest))
    as (sep & r3 & -> & H').
  { unfold spec_separator in H.
    destruct (literal_ci (js ">") r2 _) eqn:E.
    - injection H as ->. apply literal_ci_inv in E as (m & r3 & -> & _ & E). eauto.
    - apply literal_ci_inv in H as (m & r3 & -> & _ & E'). eauto. }
  clear H. apply star_inv in H' as (sp2 & r4 & -> & Hs2 & H).
  apply plus_inv in H as (m2 & r5 & -> & Hn2 & Hw2 & H).
  injection H as <- <- <-.
  exists (sp1 ++ sep ++ sp2). rewrite <- !app_assoc. repeat split; auto.
Qed.

Lemma specPattern_productive : productive specPattern.
Proof.
  intros s g1 g2 rest H.
  apply specPattern_inv in H as (mid & -> & Hn & _).
  exists (g1 ++ mid ++ g2). split.
  - destruct g1; [contradiction|discriminate].
  - now rewrite <- !app_assoc.
Qed.

(* ================================================================== *)
(** * The extraction loop *)

Lemma search_inv (re : pattern) (s : jsstring) (r : captures) :
  search re s = Some r -> exists pre sfx, s = pre ++ sfx /\ re sfx = Some r.
Proof.
  induction s as [|c s IH]; simpl; intros H.
  - destruct (re []) eqn:E; [|discriminate].
    injection H as ->. exists [], []. auto.
  - destruct (re (c :: s)) eqn:E.
    + injection H as ->. exists [], (c :: s). auto.
    + apply IH in H as (pre & sfx & -> & H). exists (c :: pre), sfx. auto.
Qed.

(** A successful [exec] moves [lastIndex] forward, within the string. *)
Lemma exec_some (re : pattern) (lastIndex lastIndex' : nat) (str g1 g2 : jsstring) :
  productive re ->
  exec re lastIndex str = (Some (g1, g2), lastIndex') ->
  lastIndex < lastIndex' <= length str
  /\ exists s rest, re s = Some (g1, g2, rest).
Proof.
  intros Hp. unfold exec.
  destruct (length str <? lastIndex) eqn:Hlt; [discriminate|].
  apply Nat.ltb_ge in Hlt.
  destruct (search re (skipn lastIndex str)) as [[[h1 h2] rest]|] eqn:Hs; [|discriminate].
  intros H. injection H as -> -> <-.
  apply search_inv in Hs as (pre & sfx & Hsplit & Hre).
  destruct (Hp _ _ _ _ Hre) as (m & Hm & ->).
  apply (f_equal (@length _)) in Hsplit.
  rewrite length_skipn, !length_app in Hsplit.
  assert (0 < length m) by (destruct m; [contradiction|simpl; lia]).
  split; [lia|eauto].
Qed.

Lemma exec_none (re : pattern) (lastIndex lastIndex' : nat) (str : jsstring) :
  exec re lastIndex str = (None, lastIndex') -> lastIndex' = 0.
Proof.
  unfold exec. destruct (length str <? lastIndex); [congruence|].
  destruct (search re (skipn lastIndex str)) as [[[h1 h2] rest]|]; congruence.
Qed.

(** The loop over one comment ends within the fuel [forEach_comment]
    gives it, leaves [lastIndex] at 0 and only adds records. *)
Lemma while_exec_total (re : pattern) (comment : Comment) :
  productive re ->
  forall fuel lastIndex matches,
    length (body comment) - lastIndex < fuel ->
    exists found,
      while_exec fuel re comment lastIndex matches = Some (0, matches ++ found)
      /\ Forall (extracted_from re comment) found.
Proof.
  intros Hp. induction fuel as [|fuel IH]; intros li ms Hf; [lia|].
  simpl. destruct (exec re li (body comment)) as [[[g1 g2]|] li'] eqn:E.
  - destruct (exec_some _ _ _ _ _ _ Hp E) as [Hli _].
    destruct (IH li' (ms ++ [{| winner := trim g1; loser := trim g2;
                                date := created_at comment |}]))
      as (found & Hw & Hall); [lia|].
    eexists (_ :: found). rewrite Hw, <- app_assoc. split; [reflexivity|].
    constructor; [|exact Hall].
    split; [reflexivity|]. exists g1, g2, li, li'. auto.
  - apply exec_none in E as ->. exists []. rewrite app_nil_r. auto.
Qed.

(** More fuel does not change what the loop returns. *)
Lemma while_exec_fuel (re : pattern) (comment : Comment) (fuel fuel' : nat) :
  fuel <= fuel' ->
  forall lastIndex matches r,
    while_exec fuel re comment lastIndex matches = Some r ->
    while_exec fuel' re comment lastIndex matches = Some r.
Proof.
  revert fuel'. induction fuel as [|fuel IH]; intros fuel' Hle li ms r; [discriminate|].
  destruct fuel' as [|fuel']; [lia|]. simpl.
  destruct (exec re li (body comment)) as [[[g1 g2]|] li']; [|auto].
  apply IH. lia.
Qed.

Lemma forEach_comment_total (re : pattern) :
  productive re ->
  forall comments lastIndex matches,
    exists lastIndex' found,
      forEach_comment re comments lastIndex matches = Some (lastIndex', matches ++ found)
      /\ Forall (fun m => exists c, In c comments /\ extracted_from re c m) found.
Proof.
  intros Hp. induction comments as [|c cs IH]; intros li ms; cbn [forEach_comment].
  - exists li, []. rewrite app_nil_r. auto.
  - destruct (while_exec_total re c Hp (S (length (body c))) li ms) as (f1 & -> & H1); [lia|].
    destruct (IH 0 (ms ++ f1)) as (li' & f2 & -> & H2).
    exists li', (f1 ++ f2). rewrite app_assoc. split; [reflexivity|].
    apply Forall_app. split.
    + eapply Forall_impl; [|exact H1]. intros m Hm. exists c. split; [now left|exact Hm].
    + eapply Forall_impl; [|exact H2]. intros m (c' & Hin & Hm). exists c'. split; [now right|exact Hm].
Qed.

(** [getMatchResults] always returns, whatever the request gave. *)
Lemma getMatchResults_total (listComments : Completion (list Comment))
    (console : list LogEntry) :
  exists matches console', getMatchResults listComments console = Some (matches, console').
Proof.
  destruct listComments as [comments|e]; simpl; [|eauto].
  destruct (forEach_comment_total matchPattern matchPattern_productive comments 0 [])
    as (li & found & -> & _). eauto.
Qed.

(** What is printed does not influence what is extracted. *)
Lemma getMatchResults_matches (listComments : Completion (list Comment))
    (console console' : list LogEntry) (matches : list Match) :
  getMatchResults listComments console = Some (matches, console') ->
  extracted listComments = Some matches.
Proof.
  unfold extracted. destruct listComments as [comments|e]; simpl.
  - destruct (forEach_comment matchPattern comments 0 []) as [[li ms]|]; [|discriminate].
    intros H. injection H as <- _. reflexivity.
  - intros H. injection H as <- _. reflexivity.
Qed.

(** C10.  Every record the extractor produces has a winner and a loser that
    are non-empty strings of word characters, so that trimming the two
    captures changes nothing, and its date is the creation time of the
    comment whose body the expression matched. *)
Theorem extracted_records_are_tokens (comments : list Comment) (console : list LogEntry) :
  exists matches,
    getMatchResults (Return comments) console = Some (matches, console)
    /\ Forall (fun m =>
         token (winner m) /\ token (loser m)
         /\ exists comment g1 g2 lastIndex lastIndex',
              In comment comments
              /\ exec matchPattern lastIndex (body comment) = (Some (g1, g2), lastIndex')
              /\ trim g1 = g1 /\ trim g2 = g2
              /\ winner m = g1 /\ loser m = g2
              /\ date m = created_at comment) matches.
Proof.
  unfold getMatchResults.
  destruct (forEach_comment_total matchPattern matchPattern_productive comments 0 [])
    as (li & found & -> & Hall).
  exists found. split; [reflexivity|].
  eapply Forall_impl; [|exact Hall].
  intros m (c & Hin & Hdate & g1 & g2 & i & i' & Hexec & Hw & Hl).
  destruct (exec_some _ _ _ _ _ _ matchPattern_productive Hexec) as (_ & s & rest & Hre).
  destruct (matchPattern_word_captures _ _ _ _ Hre) as [[Hn1 Hw1] [Hn2 Hw2]].
  rewrite (trim_word g1 Hw1) in Hw. rewrite (trim_word g2 Hw2) in Hl.
  repeat split; try congruence.
  exists c, g1, g2, i, i'. repeat split; auto using trim_word.
Qed.

(** C1.  On a comment written as the README documents, [A beat B], the
    expression takes the single letter [b] as the separator: the extractor
    returns two records, none of them Thomas over Raymond, where the
    pattern of the specification gives that one record. *)
Theorem beat_comment_extraction :
  getMatchResults (Return [beat_comment]) []
  = Some ([ {| winner := js "Thomas"; loser := js "eat"; date := created_at beat_comment |};
            {| winner := js "R"; loser := js "ymond"; date := created_at beat_comment |} ],
          [])
  /\ forEach_comment specPattern [beat_comment] 0 []
     = Some (0, [ {| winner := js "Thomas"; loser := js "Raymond";
                     date := created_at beat_comment |} ]).
Proof. split; vm_compute; reflexivity. Qed.

(** C6.  When fetching the comments throws, [getMatchResults] prints the
    error and returns the empty list; [main] then settles normally and
    leaves the files as they were. *)
Theorem fetch_error_is_caught (h : Host) (error : Error) (w : World) :
  (forall console,
     getMatchResults (Throw error) console
     = Some ([], console ++ [ConsoleError [js "Error fetching comments:"; error]]))
  /\ exists w',
       main h (Throw error) w = Some (Return tt, w')
       /\ files w' = files w
       /\ In (ConsoleError [js "Error fetching comments:"; error]) (console w').
Proof.
  split; [reflexivity|].
  eexists. split; [reflexivity|]. split; [reflexivity|].
  simpl. rewrite !in_app_iff. simpl. auto 10.
Qed.

(** C5.  When no record is extracted, [main] writes no file, so the report
    stays as it was, and the run ends normally. *)
Theorem no_records_no_report (h : Host) (listComments : Completion (list Comment))
    (w : World) :
  extracted listComments = Some [] ->
  exists w',
    main h listComments w = Some (Return tt, w')
    /\ files w' = files w
    /\ script h listComments w = Some w'.
Proof.
  intros He. unfold script, main.
  destruct (getMatchResults_total listComments
              (console (log w (js "Start updating rankings...")))) as (ms & c' & Hg).
  rewrite Hg. apply getMatchResults_matches in Hg. rewrite Hg in He.
  injection He as ->. simpl. eexists. repeat split.
Qed.

Lemma no_records_no_report_witness :
  exists w',
    main {| toLocaleDateString := fun d => d; now_toLocaleString := js "now";
            writeFileSync_error := None |}
         (Return [{| body := js "no ping"; created_at := js "2024-05-01T18:30:00Z" |}])
         {| console := []; files := [(js "README.md", js "old")]; globals := pristine |}
    = Some (Return tt, w')
    /\ files w' = [(js "README.md", js "old")]
    /\ script {| toLocaleDateString := fun d => d; now_toLocaleString := js "now";
                 writeFileSync_error := None |}
         (Return [{| body := js "no ping"; created_at := js "2024-05-01T18:30:00Z" |}])
         {| console := []; files := [(js "README.md", js "old")]; globals := pristine |}
       = Some w'.
Proof.
  apply (no_records_no_report
           {| toLocaleDateString := fun d => d; now_toLocaleString := js "now";
              writeFileSync_error := None |}
           (Return [{| body := js "no ping"; created_at := js "2024-05-01T18:30:00Z" |}])
           {| console := []; files := [(js "README.md", js "old")]; globals := pristine |}).
  vm_compute. reflexivity.
Defined.

(* ================================================================== *)
(** * The [players] object *)

Lemma truthy_get (players : Players) (realm : Realm) (name : jsstring) :
  truthy (get players realm name) = known players name.
Proof.
  unfold get, known. destruct (own players name); [reflexivity|].
  destruct (inherited name); [reflexivity|].
  now destruct (existsb _ _).
Qed.

Lemma own_app (players : Players) (name k : jsstring) (s : stats.t) :
  own (players ++ [(name, s)]) k
  = match own players k with
    | Some x => Some x
    | None => if jsstring_eqb k name then Some s else None
    end.
Proof.
  induction players as [|[n x] players IH]; simpl; [reflexivity|].
  now destruct (jsstring_eqb k n).
Qed.

Lemma own_update_own (players : Players) (name k : jsstring) (f : field) :
  own (update_own players name f) k
  = if jsstring_eqb k name then option_map (bump f) (own players k) else own players k.
Proof.
  induction players as [|[n x] players IH]; simpl.
  - now destruct (jsstring_eqb k name).
  - destruct (jsstring_eqb name n) eqn:Hn; simpl.
    + apply jsstring_eqb_eq in Hn. subst n.
      destruct (jsstring_eqb k name); reflexivity.
    + rewrite IH. destruct (jsstring_eqb k n) eqn:Hk; [|reflexivity].
      apply jsstring_eqb_eq in Hk. subst n.
      apply jsstring_eqb_neq in Hn.
      assert (Hkn : jsstring_eqb k name = false) by (apply jsstring_eqb_neq; congruence).
      now rewrite Hkn.
Qed.

Lemma update_own_keys (players : Players) (name : jsstring) (f : field) :
  map fst (update_own players name f) = map fst players.
Proof.
  induction players as [|[n x] players IH]; simpl; [reflexivity|].
  destruct (jsstring_eqb name n); simpl; congruence.
Qed.

Lemma own_None (players : Players) (name : jsstring) :
  own players name = None <-> ~ In name (map fst players).
Proof.
  induction players as [|[n x] players IH]; simpl; [tauto|].
  destruct (jsstring_eqb name n) eqn:Hn.
  - apply jsstring_eqb_eq in Hn. subst. split; [discriminate|tauto].
  - apply jsstring_eqb_neq in Hn. rewrite IH. split; [intros H [E|E]; auto|tauto].
Qed.

Lemma own_In (players : Players) (k : jsstring) (s : stats.t) :
  NoDup (map fst players) -> (In (k, s) players <-> own players k = Some s).
Proof.
  induction players as [|[n x] players IH]; simpl; intros Hnd.
  - split; [tauto|discriminate].
  - inversion Hnd as [|? ? Hn Hnd']; subst.
    destruct (jsstring_eqb k n) eqn:Hk.
    + apply jsstring_eqb_eq in Hk. subst n. split.
      * intros [E|E]; [congruence|].
        exfalso. apply Hn. apply (in_map fst) in E. exact E.
      * intros E. left. congruence.
    + apply jsstring_eqb_neq in Hk. rewrite <- (IH Hnd'). split.
      * intros [E|E]; [congruence|exact E].
      * auto.
Qed.

Lemma initialize_known (players : Players) (realm : Realm) (name : jsstring) :
  initialize players realm name
  = if known players name then players
    else players ++ [(name, {| stats.win := 0; stats.lose := 0 |})].
Proof.
  unfold initialize. rewrite truthy_get. now destruct (known players name).
Qed.

Lemma own_initialize (players : Players) (realm : Realm) (name k : jsstring) :
  own (initialize players realm name) k
  = match own players k with
    | Some s => Some s
    | None =>
        if jsstring_eqb k name && negb (inherited k)
        then Some {| stats.win := 0; stats.lose := 0 |}
        else None
    end.
Proof.
  rewrite initialize_known. unfold known.
  destruct (jsstring_eqb k name) eqn:Hk.
  - apply jsstring_eqb_eq in Hk. subst k.
    destruct (own players name) eqn:Ho; [now rewrite Ho|].
    destruct (inherited name); simpl; [now rewrite Ho|].
    rewrite own_app, Ho, jsstring_eqb_refl. reflexivity.
  - simpl. destruct (own players name); [now destruct (own players k)|].
    destruct (inherited name); [now destruct (own players k)|].
    rewrite own_app, Hk. reflexivity.
Qed.

Lemma initialize_keys (players : Players) (realm : Realm) (name : jsstring) :
  NoDup (map fst players) -> NoDup (map fst (initialize players realm name)).
Proof.
  intros Hnd. rewrite initialize_known. unfold known.
  destruct (own players name) eqn:Ho; [exact Hnd|].
  destruct (inherited name); [exact Hnd|].
  rewrite map_app. simpl. apply NoDup_app.
  - exact Hnd.
  - repeat constructor. simpl. tauto.
  - intros x Hx [<-|[]]. apply own_None in Ho. contradiction.
Qed.

Lemma known_initialize (players : Players) (realm : Realm) (name : jsstring) :
  known (initialize players realm name) name = true.
Proof.
  unfold known. rewrite own_initialize, jsstring_eqb_refl.
  destruct (own players name); [reflexivity|].
  now destruct (inherited name).
Qed.

Lemma known_initialize_mono (players : Players) (realm : Realm) (name k : jsstring) :
  known players k = true -> known (initialize players realm name) k = true.
Proof.
  unfold known. rewrite own_initialize.
  destruct (own players k); [reflexivity|]. intros ->.
  now destruct (jsstring_eqb k name).
Qed.

Lemma known_update_own (players : Players) (name k : jsstring) (f : field) :
  known (update_own players name f) k = known players k.
Proof.
  unfold known. rewrite own_update_own.
  destruct (jsstring_eqb k name), (own players k); reflexivity.
Qed.

Lemma update_own_absent (players : Players) (name : jsstring) (f : field) :
  own players name = None -> update_own players name f = players.
Proof.
  induction players as [|[n x] players IH]; simpl; [reflexivity|].
  destruct (jsstring_eqb name n); [discriminate|]. intros H. now rewrite IH.
Qed.

Lemma initialize_realm (players : Players) (realm realm' : Realm) (name : jsstring) :
  initialize players realm name = initialize players realm' name.
Proof. now rewrite !initialize_known. Qed.

Lemma increment_known (players : Players) (realm : Realm) (name : jsstring) (f : field) :
  known players name = true ->
  increment players realm name f
  = (Return (update_own players name f), touch players realm name f).
Proof.
  unfold increment, get, known, touch. destruct (own players name) eqn:Ho.
  - reflexivity.
  - intros ->. now rewrite (update_own_absent _ _ _ Ho).
Qed.

(** The callback never throws: after the two initializations both names
    are truthy keys of [players]. *)
Lemma record_match_returns (players : Players) (realm : Realm) (m : Match) :
  exists realm', record_match players realm m = (Return (credited players m), realm').
Proof.
  unfold record_match, credited.
  rewrite (initialize_realm players realm pristine).
  rewrite (initialize_realm _ realm pristine).
  set (p2 := initialize (initialize players pristine (winner m)) pristine (loser m)).
  rewrite increment_known
    by (apply known_initialize_mono, known_initialize).
  rewrite increment_known
    by (rewrite known_update_own; apply known_initialize).
  eauto.
Qed.

Lemma forEach_match_returns (matches : list Match) (players : Players) (realm : Realm) :
  exists realm',
    forEach_match matches players realm
    = (Return (fold_left credited matches players), realm').
Proof.
  revert players realm. induction matches as [|m ms IH]; intros players realm; simpl.
  - eauto.
  - destruct (record_match_returns players realm m) as (realm1 & ->). apply IH.
Qed.

Lemma own_credited (players : Players) (m : Match) (k : jsstring) :
  own (credited players m) k
  = option_map
      (fun s => bump_if (jsstring_eqb k (loser m)) Lose
                  (bump_if (jsstring_eqb k (winner m)) Win s))
      match own players k with
      | Some s => Some s
      | None =>
          if (jsstring_eqb k (winner m) || jsstring_eqb k (loser m)) && negb (inherited k)
          then Some {| stats.win := 0; stats.lose := 0 |}
          else None
      end.
Proof.
  unfold credited. rewrite !own_update_own, !own_initialize.
  destruct (own players k), (jsstring_eqb k (winner m)), (jsstring_eqb k (loser m)),
    (inherited k); reflexivity.
Qed.

Lemma credited_keys (players : Players) (m : Match) :
  NoDup (map fst players) -> NoDup (map fst (credited players m)).
Proof.
  intros H. unfold credited. rewrite !update_own_keys.
  now apply initialize_keys, initialize_keys.
Qed.

Lemma fold_credited_keys (matches : list Match) (players : Players) :
  NoDup (map fst players) -> NoDup (map fst (fold_left credited matches players)).
Proof.
  revert players. induction matches as [|m ms IH]; intros players H; simpl; [exact H|].
  now apply IH, credited_keys.
Qed.

Lemma count_wins_cons (k : jsstring) (m : Match) (ms : list Match) :
  count_wins k (m :: ms)
  = ((if jsstring_eqb k (winner m) then 1 else 0) + count_wins k ms)%N.
Proof.
  unfold count_wins. simpl. destruct (jsstring_eqb k (winner m)); simpl length; lia.
Qed.

Lemma count_losses_cons (k : jsstring) (m : Match) (ms : list Match) :
  count_losses k (m :: ms)
  = ((if jsstring_eqb k (loser m) then 1 else 0) + count_losses k ms)%N.
Proof.
  unfold count_losses. simpl. destruct (jsstring_eqb k (loser m)); simpl length; lia.
Qed.

(** The own entry of a name after all matches: what it held before plus
    the matches it won and lost; a name that is no key of
    [Object.prototype] gets its entry with its first match. *)
Lemma own_fold_credited (matches : list Match) (players : Players) (k : jsstring) :
  own (fold_left credited matches players) k
  = match own players k with
    | Some s =>
        Some {| stats.win := stats.win s + count_wins k matches;
                stats.lose := stats.lose s + count_losses k matches |}
    | None =>
        if negb (inherited k) && (0 <? count_wins k matches + count_losses k matches)%N
        then Some {| stats.win := count_wins k matches;
                     stats.lose := count_losses k matches |}
        else None
    end.
Proof.
  revert players. induction matches as [|m ms IH]; intros players.
  - simpl. destruct (own players k) as [[w l]|]; simpl.
    + unfold count_wins, count_losses. simpl. now rewrite !N.add_0_r.
    + now rewrite andb_false_r.
  - cbn [fold_left]. rewrite IH, own_credited, count_wins_cons, count_losses_cons.
    destruct (own players k) as [[w l]|], (jsstring_eqb k (winner m)),
      (jsstring_eqb k (loser m)), (inherited k);
      cbn [option_map bump_if bump stats.win stats.lose negb andb orb];
      repeat match goal with
      | |- context [(0 <? ?x)%N] => destruct (N.ltb_spec 0 x)
      end; try lia; try reflexivity; f_equal; f_equal; lia.
Qed.

(* ================================================================== *)
(** * [Object.entries] and [sort] rearrange, and no more *)

Lemma insert_index_perm {V : Type} (e : jsstring * V) (l : list (jsstring * V)) :
  Permutation (insert_index e l) (e :: l).
Proof.
  induction l as [|e' l IH]; simpl; [reflexivity|].
  destruct (index_of (fst e) <=? index_of (fst e'))%N; [reflexivity|].
  rewrite IH. apply perm_swap.
Qed.

Lemma filter_split_perm {T : Type} (f : T -> bool) (l : list T) :
  Permutation (filter f l ++ filter (fun x => negb (f x)) l) l.
Proof.
  induction l as [|x l IH]; simpl; [reflexivity|].
  destruct (f x); simpl.
  - now apply perm_skip.
  - symmetry. apply Permutation_cons_app. now symmetry.
Qed.

Lemma Object_entries_perm {V : Type} (o : list (jsstring * V)) :
  Permutation (Object_entries o) o.
Proof.
  unfold Object_entries.
  rewrite <- (filter_split_perm (fun e => is_array_index (fst e)) o) at 3.
  apply Permutation_app_tail.
  induction (filter (fun e => is_array_index (fst e)) o) as [|e l IH]; simpl;
    [reflexivity|].
  rewrite insert_index_perm. now apply perm_skip.
Qed.

Lemma sort_insert_perm {T : Type} (cmp : T -> T -> number) (x : T) (l : list T) :
  Permutation (sort_insert cmp x l) (x :: l).
Proof.
  induction l as [|y l IH]; simpl; [reflexivity|].
  destruct (positive (cmp x y)); [|reflexivity].
  rewrite IH. apply perm_swap.
Qed.

Lemma Array_sort_perm {T : Type} (cmp : T -> T -> number) (l : list T) :
  Permutation (Array_sort cmp l) l.
Proof.
  induction l as [|x l IH]; simpl; [reflexivity|].
  rewrite sort_insert_perm. now apply perm_skip.
Qed.

(** [calculateRankings] returns: it never throws.  The ranking holds the
    own entries of [players], rearranged, and the second component is the
    list of matches it was given. *)
Lemma calculateRankings_returns (matches : list Match) (realm : Realm) :
  exists rankings realm',
    calculateRankings matches realm = (Return (rankings, matches), realm')
    /\ rankings = Array_sort compareFn (map to_stat (Object_entries (players_of matches)))
    /\ Permutation rankings (map to_stat (players_of matches)).
Proof.
  unfold calculateRankings.
  destruct (forEach_match_returns matches [] realm) as (realm' & ->).
  eexists. exists realm'. split; [reflexivity|]. split; [reflexivity|].
  rewrite Array_sort_perm. apply Permutation_map, Object_entries_perm.
Qed.

Lemma players_of_keys (matches : list Match) : NoDup (map fst (players_of matches)).
Proof. apply fold_credited_keys. constructor. Qed.

(** The own entries after all matches: exactly the names in the matches
    that are no keys of [Object.prototype], each with the number of matches
    it won and lost. *)
Lemma players_of_entry (matches : list Match) (k : jsstring) (s : stats.t) :
  In (k, s) (players_of matches)
  <-> inherited k = false
      /\ (0 < count_wins k matches + count_losses k matches)%N
      /\ s = {| stats.win := count_wins k matches; stats.lose := count_losses k matches |}.
Proof.
  rewrite (own_In _ _ _ (players_of_keys matches)).
  unfold players_of. rewrite own_fold_credited. simpl.
  destruct (inherited k); simpl.
  - split; [discriminate|]. intros [H _]. discriminate.
  - destruct (N.ltb_spec 0 (count_wins k matches + count_losses k matches)).
    + split.
      * intros E. injection E as <-. auto.
      * intros (_ & _ & ->). reflexivity.
    + split; [discriminate|]. intros (_ & H' & _). lia.
Qed.

(* ================================================================== *)
(** * Win rates *)

Lemma div_counters_rate (w t : N) :
  (0 < t)%N -> (w <= t)%N ->
  exists q,
    div_counters w t = Num q
    /\ q = (inject_Z (Z.of_N w) / inject_Z (Z.of_N t))%Q
    /\ (0 <= q)%Q /\ (q <= 1)%Q.
Proof.
  intros Ht Hw. unfold div_counters.
  destruct (N.eqb_spec t 0) as [->|_]; [lia|].
  eexists. split; [reflexivity|]. split; [reflexivity|].
  assert (Hpos : (0 < inject_Z (Z.of_N t))%Q).
  { change 0%Q with (inject_Z 0). rewrite <- Zlt_Qlt. lia. }
  split.
  - apply Qle_shift_div_l; [exact Hpos|].
    rewrite Qmult_0_l. change 0%Q with (inject_Z 0). rewrite <- Zle_Qle. lia.
  - apply Qle_shift_div_r; [exact Hpos|].
    rewrite Qmult_1_l. rewrite <- Zle_Qle. lia.
Qed.

(** Every entry of the ranking stems from an own entry of [players], has
    played at least one match, and so has a win rate between 0 and 1. *)
Lemma to_stat_entry (matches : list Match) (p : PlayerStat) :
  In p (map to_stat (players_of matches)) ->
  inherited (player p) = false
  /\ win p = count_wins (player p) matches
  /\ lose p = count_losses (player p) matches
  /\ total p = (win p + lose p)%N
  /\ (0 < total p)%N
  /\ exists q, winRate p = Num q
               /\ q = (inject_Z (Z.of_N (win p)) / inject_Z (Z.of_N (total p)))%Q
               /\ (0 <= q)%Q /\ (q <= 1)%Q.
Proof.
  intros H. apply in_map_iff in H as ([k s] & <- & Hin).
  apply players_of_entry in Hin as (Hinh & Hpos & ->). simpl.
  repeat split; auto.
  apply div_counters_rate; lia.
Qed.

(* ================================================================== *)
(** * The order of the ranking *)

Lemma compareFn_positive (a b : PlayerStat) :
  rated a -> rated b -> positive (compareFn a b) = true -> ranks_before b a.
Proof.
  intros [qa Ha] [qb Hb]. unfold compareFn, ranks_before. rewrite Ha, Hb. simpl.
  destruct (Qeq_bool qb qa) eqn:E; simpl; intros H;
    apply negb_true_iff in H;
    assert (Hn : ~ (Qle_bool _ _ = true)) by (rewrite H; discriminate);
    rewrite Qle_bool_iff in Hn; exists qb, qa; repeat split; auto.
  - right. apply Qeq_bool_iff in E. split; [exact E|].
    assert (inject_Z (Z.of_N (win a)) < inject_Z (Z.of_N (win b)))%Q by lra.
    rewrite <- Zlt_Qlt in *. lia.
  - left. lra.
Qed.

Lemma compareFn_not_positive (a b : PlayerStat) :
  rated a -> rated b -> positive (compareFn a b) = false -> ranks_before a b.
Proof.
  intros [qa Ha] [qb Hb]. unfold compareFn, ranks_before. rewrite Ha, Hb. simpl.
  destruct (Qeq_bool qb qa) eqn:E; simpl; intros H;
    apply negb_false_iff, Qle_bool_iff in H; exists qa, qb; repeat split; auto.
  - right. apply Qeq_bool_iff in E. split; [now symmetry|].
    assert (inject_Z (Z.of_N (win b)) <= inject_Z (Z.of_N (win a)))%Q by lra.
    rewrite <- Zle_Qle in *. lia.
  - left. apply Qeq_bool_neq in E.
    destruct (Qlt_le_dec qb qa) as [Hlt|Hle]; [exact Hlt|].
    exfalso. apply E. apply Qle_antisym; lra.
Qed.

Lemma sort_insert_sorted (x : PlayerStat) (l : list PlayerStat) :
  rated x -> Forall rated l -> Sorted ranks_before l ->
  Sorted ranks_before (sort_insert compareFn x l).
Proof.
  intros Hx Hl Hs. induction l as [|y l IH]; simpl.
  - repeat constructor.
  - inversion Hl as [|? ? Hy Hl']; subst.
    apply Sorted_inv in Hs as [Hs Hhd].
    destruct (positive (compareFn x y)) eqn:E.
    + constructor; [now apply IH|].
      destruct l as [|z l]; simpl.
      * constructor. now apply compareFn_positive.
      * destruct (positive (compareFn x z)).
        -- constructor. now apply HdRel_inv in Hhd.
        -- constructor. now apply compareFn_positive.
    + constructor; [now constructor|].
      constructor. now apply compareFn_not_positive.
Qed.

Lemma Array_sort_sorted (l : list PlayerStat) :
  Forall rated l -> Sorted ranks_before (Array_sort compareFn l).
Proof.
  induction 1 as [|x l Hx Hl IH]; simpl; [constructor|].
  apply sort_insert_sorted; auto.
  eapply Permutation_Forall; [|exact Hl]. symmetry. apply Array_sort_perm.
Qed.

Lemma Sorted_adjacent {T : Type} (R : T -> T -> Prop) (l : list T) :
  Sorted R l ->
  forall i a b, nth_error l i = Some a -> nth_error l (S i) = Some b -> R a b.
Proof.
  induction 1 as [|x l Hs IH Hhd]; intros i a b Ha Hb.
  - destruct i; discriminate.
  - destruct i as [|i]; simpl in *.
    + injection Ha as <-. destruct l as [|y l]; [discriminate|].
      injection Hb as <-. now apply HdRel_inv in Hhd.
    + eauto.
Qed.

(** C2.  The ranking is in descending order of win rate, ties in win rate
    broken by descending number of wins: no two adjacent entries violate
    that order. *)
Theorem ranking_is_sorted (matches : list Match) (realm : Realm) :
  exists rankings realm',
    calculateRankings matches realm = (Return (rankings, matches), realm')
    /\ forall i a b,
         nth_error rankings i = Some a -> nth_error rankings (S i) = Some b ->
         ranks_before a b.
Proof.
  destruct (calculateRankings_returns matches realm) as (rankings & realm' & H & -> & _).
  eexists. exists realm'. split; [exact H|].
  apply Sorted_adjacent, Array_sort_sorted.
  apply Forall_forall. intros p Hp.
  assert (Hin : In p (map to_stat (players_of matches))).
  { eapply Permutation_in; [|exact Hp].
    apply Permutation_map, Object_entries_perm. }
  apply to_stat_entry in Hin as (_ & _ & _ & _ & _ & q & Hq & _). now exists q.
Qed.

(* ================================================================== *)
(** * The recent-matches table *)



Lemma join_app_cons (sep x : jsstring) (a b : list jsstring) :
  a <> [] ->
  join sep (a ++ x :: b)
  = join sep a ++ sep ++ x ++ flat_map (fun y => sep ++ y) b.
Proof.
  destruct a as [|y a]; [contradiction|]. intros _. simpl.
  rewrite flat_map_app. simpl. now rewrite <- !app_assoc.
Qed.

(* ================================================================== *)
(** * Doubles *)

Lemma round_half_even_near (r : Q) :
  (inject_Z (round_half_even r) - (1 # 2) <= r)%Q
  /\ (r <= inject_Z (round_half_even r) + (1 # 2))%Q.
Proof.
  unfold round_half_even.
  pose proof (Qfloor_le r) as Hlo. pose proof (Qlt_floor r) as Hhi.
  rewrite inject_Z_plus in Hhi. change (inject_Z 1) with 1%Q in Hhi.
  set (f := Qfloor r) in *.
  destruct (Qcompare_spec (r - inject_Z f) (1 # 2)) as [E|L|G].
  - destruct (Z.even f); rewrite ?inject_Z_plus; change (inject_Z 1) with 1%Q; split; lra.
  - split; lra.
  - rewrite inject_Z_plus. change (inject_Z 1) with 1%Q. split; lra.
Qed.

Lemma round_half_even_nonneg (r : Q) : (0 <= r)%Q -> (0 <= round_half_even r)%Z.
Proof.
  intros H. unfold round_half_even.
  assert (Hf : (0 <= Qfloor r)%Z) by (apply (Qfloor_resp_le 0 r H)).
  destruct (r - inject_Z (Qfloor r) ?= 1 # 2)%Q; [destruct (Z.even _)| |]; lia.
Qed.

Lemma round_half_even_Qeq (r r' : Q) : (r == r')%Q -> round_half_even r = round_half_even r'.
Proof.
  intros H. unfold round_half_even.
  assert (Hf : Qfloor r = Qfloor r') by now apply Qfloor_comp.
  rewrite <- Hf.
  assert (Hc : (r - inject_Z (Qfloor r) ?= 1 # 2)%Q = (r' - inject_Z (Qfloor r) ?= 1 # 2)%Q)
    by (apply Qcompare_comp; [apply Qplus_comp; [exact H|reflexivity]|reflexivity]).
  now rewrite Hc.
Qed.

Lemma exponent_Qeq (q q' : Q) : (q == q')%Q -> exponent q = exponent q'.
Proof.
  intros H. unfold exponent.
  assert (Hb : Qle_bool 1 q = Qle_bool 1 q') by (apply Qleb_comp; [reflexivity|exact H]).
  assert (Hf : Qfloor q = Qfloor q') by now apply Qfloor_comp.
  assert (Hc : Qceiling (/ q) = Qceiling (/ q'))
    by (apply Qceiling_comp, Qinv_comp; exact H).
  now rewrite Hb, Hf, Hc.
Qed.

Lemma two_power_pos (z : Z) : (0 < 2 ^ z)%Q.
Proof. apply Qpower_0_lt. reflexivity. Qed.

(** The exponent of a positive number is not above its logarithm. *)
Lemma exponent_below (q : Q) : (0 < q)%Q -> (2 ^ exponent q <= q)%Q.
Proof.
  intros Hq. unfold exponent. destruct (Qle_bool 1 q) eqn:E.
  - apply Qle_bool_iff in E.
    assert (Hf : (1 <= Qfloor q)%Z) by (apply (Qfloor_resp_le 1 q E)).
    destruct (Z.log2_spec (Qfloor q)) as [Hlog _]; [lia|].
    change 2%Q with (inject_Z 2). rewrite <- Zpower_Qpower by apply Z.log2_nonneg.
    apply Qle_trans with (inject_Z (Qfloor q)); [|apply Qfloor_le].
    rewrite <- Zle_Qle. exact Hlog.
  - assert (Hlt : (q < 1)%Q).
    { destruct (Qlt_le_dec q 1) as [H|H]; [exact H|].
      apply Qle_bool_iff in H. congruence. }
    set (c := Qceiling (/ q)).
    assert (Hinv : (1 < / q)%Q).
    { apply Qlt_shift_inv_l; [exact Hq|]. lra. }
    assert (Hc : (/ q <= inject_Z c)%Q) by apply Qle_ceiling.
    assert (Hc1 : (1 < c)%Z).
    { rewrite Zlt_Qlt. change (inject_Z 1) with 1%Q. lra. }
    destruct (Z.log2_up_spec c Hc1) as [_ Hup].
    rewrite Qpower_opp.
    apply Qle_shift_inv_r; [apply two_power_pos|].
    change 2%Q with (inject_Z 2). rewrite <- Zpower_Qpower by apply Z.log2_up_nonneg.
    assert (Hp : (/ q <= inject_Z (2 ^ Z.log2_up c))%Q).
    { apply Qle_trans with (inject_Z c); [exact Hc|]. rewrite <- Zle_Qle. exact Hup. }
    apply (Qmult_le_l _ _ q Hq) in Hp.
    rewrite Qmult_inv_r in Hp by lra. exact Hp.
Qed.

(** Rounding a positive number to a double changes it by at most one part
    in 2^53. *)
Lemma double_positive_near (q : Q) :
  (0 < q)%Q ->
  (q * (1 - eps) <= double_positive q)%Q /\ (double_positive q <= q * (1 + eps))%Q.
Proof.
  intros Hq. unfold double_positive. cbv zeta.
  set (e := exponent q).
  pose proof (exponent_below q Hq) as He. fold e in He.
  pose proof (two_power_pos (52 - e)) as HP. pose proof (two_power_pos (e - 52)) as HS.
  set (P := (2 ^ (52 - e))%Q) in *. set (S := (2 ^ (e - 52))%Q) in *.
  assert (HPS : (P * S == 1)%Q).
  { unfold P, S. rewrite <- Qpower_plus by discriminate.
    replace (52 - e + (e - 52))%Z with 0%Z by lia. reflexivity. }
  assert (HSe : (S == 2 ^ e * (1 # 4503599627370496))%Q).
  { unfold S. replace (e - 52)%Z with (e + - 52)%Z by lia.
    rewrite Qpower_plus by discriminate. reflexivity. }
  destruct (round_half_even_near (q * P)) as [Hlo Hhi].
  set (m := inject_Z (round_half_even (q * P))) in *.
  assert (Hq' : (q == q * P * S)%Q) by (rewrite <- Qmult_assoc, HPS; ring).
  assert (HSq : (S * (1 # 2) <= q * eps)%Q).
  { rewrite HSe. unfold eps.
    setoid_replace (2 ^ e * (1 # 4503599627370496) * (1 # 2))%Q
      with (2 ^ e * (1 # 9007199254740992))%Q by ring.
    apply Qmult_le_compat_r; [exact He|discriminate]. }
  assert (H1 : ((m - (1 # 2)) * S <= q * P * S)%Q)
    by (apply Qmult_le_compat_r; [exact Hlo|lra]).
  assert (H2 : (q * P * S <= (m + (1 # 2)) * S)%Q)
    by (apply Qmult_le_compat_r; [exact Hhi|lra]).
  rewrite <- Hq' in H1, H2.
  split; lra.
Qed.

Lemma double_near (q : Q) :
  (0 <= q)%Q ->
  (q * (1 - eps) <= double q)%Q /\ (double q <= q * (1 + eps))%Q.
Proof.
  intros Hq. unfold double. destruct (Qcompare_spec q 0) as [E|L|G].
  - rewrite E. split; lra.
  - lra.
  - now apply double_positive_near.
Qed.

Lemma double_Qeq (q q' : Q) : (q == q')%Q -> (double q == double q')%Q.
Proof.
  intros H. unfold double.
  assert (Hc : (q ?= 0)%Q = (q' ?= 0)%Q) by (apply Qcompare_comp; [exact H|reflexivity]).
  rewrite <- Hc. unfold double_positive. cbv zeta.
  destruct (q ?= 0)%Q.
  - reflexivity.
  - assert (Hn : (- q == - q')%Q) by now rewrite H.
    rewrite <- (exponent_Qeq _ _ Hn).
    rewrite (round_half_even_Qeq (- q * 2 ^ (52 - exponent (- q)))
                                 (- q' * 2 ^ (52 - exponent (- q)))); [reflexivity|].
    apply Qmult_comp; [exact Hn|reflexivity].
  - rewrite <- (exponent_Qeq _ _ H).
    rewrite (round_half_even_Qeq (q * 2 ^ (52 - exponent q))
                                 (q' * 2 ^ (52 - exponent q))); [reflexivity|].
    apply Qmult_comp; [exact H|reflexivity].
Qed.

Lemma double_100 : (double 100 == 100)%Q.
Proof. vm_compute. reflexivity. Qed.

(** The percentage [rate * 100] as the program computes it, for a rate
    between 0 and 1: within 10^-12 of the exact product. *)
Lemma percentage_near (q : Q) :
  (0 <= q)%Q -> (q <= 1)%Q ->
  exists x,
    mul (Num q) (of_N 100) = Num x
    /\ (0 <= x)%Q /\ (x <= 1000)%Q
    /\ (q * 100 - (1 # 1000000000000) <= x)%Q
    /\ (x <= q * 100 + (1 # 1000000000000))%Q.
Proof.
  intros H0 H1. eexists. split; [reflexivity|].
  change (inject_Z (Z.of_N 100)) with 100%Q.
  destruct (double_near q H0) as [Hlo Hhi].
  pose proof double_100 as H100.
  set (d := double q) in *.
  assert (Hd0 : (0 <= d)%Q) by (unfold eps in *; lra).
  assert (Hy : (double q * double 100 == d * 100)%Q) by (fold d; now rewrite H100).
  assert (Hy0 : (0 <= d * double 100)%Q) by (rewrite H100; lra).
  destruct (double_near (d * double 100) Hy0) as [Ylo Yhi].
  fold d. set (x := double (d * double 100)) in *.
  rewrite H100 in Ylo, Yhi.
  unfold eps in *.
  assert (Hd1 : (d <= 2)%Q) by lra.
  repeat split; lra.
Qed.

(* ================================================================== *)
(** * Reading a printed number back *)

Lemma decimal_value_acc (u : Decimal.uint) (acc : BinNums.positive) :
  decimal_value (Npos acc) (digits u) = Some (Npos (Pos.of_uint_acc u acc)).
Proof.
  revert acc. induction u; intros acc; cbn [digits Pos.of_uint_acc decimal_value];
    [reflexivity|..];
    match goal with
    | |- context [digit_value ?c] =>
        let d := eval vm_compute in (digit_value c) in
        change (digit_value c) with d; cbv iota beta
    end;
    rewrite <- IHu; f_equal; lia.
Qed.

Lemma decimal_value_digits (u : Decimal.uint) :
  decimal_value 0 (digits u) = Some (Pos.of_uint u).
Proof.
  induction u; cbn [digits Pos.of_uint decimal_value]; [reflexivity|..];
    match goal with
    | |- context [digit_value ?c] =>
        let d := eval vm_compute in (digit_value c) in
        change (digit_value c) with d; cbv iota beta
    end;
    [exact IHu|..];
    match goal with
    | |- decimal_value ?a _ = _ =>
        let p := eval vm_compute in a in change a with p
    end;
    now rewrite decimal_value_acc.
Qed.

(** The digits [N_toString] prints read back as the number. *)
Lemma decimal_value_N_toString (n : N) : decimal_value 0 (N_toString n) = Some n.
Proof.
  unfold N_toString. rewrite decimal_value_digits.
  f_equal. destruct n as [|p]; [reflexivity|]. apply DecimalPos.Unsigned.of_to.
Qed.

(* ================================================================== *)
(** * The ranking table *)

Lemma digits_are_digits (u : Decimal.uint) : forallb is_digit (digits u) = true.
Proof. induction u; simpl; auto. Qed.

Lemma N_toString_nonempty (n : N) : N_toString n <> [].
Proof.
  unfold N_toString. destruct n as [|p]; simpl; [discriminate|].
  generalize (Unsigned.to_uint_nonnil p).
  destruct (Pos.to_uint p); simpl; (contradiction || discriminate).
Qed.

(** The digits of [n], padded to two, split before the last one; the
    digits on the two sides of the point are the digits of [n]. *)
Lemma point_before_last_digit (m : jsstring) :
  m <> [] -> forallb is_digit m = true ->
  exists whole frac,
    (let m' := if length m <=? 1 then repeat 48%N (2 - length m) ++ m else m in
     firstn (length m' - 1) m' ++ js "." ++ skipn (length m' - 1) m')
    = whole ++ js "." ++ [frac]
    /\ whole <> [] /\ forallb is_digit whole = true /\ is_digit frac = true
    /\ decimal_value 0 (whole ++ [frac]) = decimal_value 0 m.
Proof.
  intros Hne Hd. cbv zeta. unfold jsstring, code_unit in *.
  destruct (Nat.leb_spec (length m) 1) as [Hle|Hgt].
  - destruct m as [|d [|e m]]; [contradiction| |simpl in Hle; lia].
    exists [48%N], d. simpl in *. rewrite andb_true_r in Hd.
    split; [reflexivity|]. split; [discriminate|]. split; [reflexivity|].
    split; [exact Hd|reflexivity].
  - cbv iota.
    match goal with |- context [skipn ?n m] => set (k := n) end.
    assert (Hsplit := firstn_skipn k m).
    assert (Hlen : length (skipn k m) = 1) by (unfold k; rewrite length_skipn; lia).
    assert (Hfirst : length (firstn k m) = k) by (unfold k; rewrite length_firstn; lia).
    rewrite <- Hsplit, forallb_app in Hd. apply andb_true_iff in Hd as [Hd1 Hd2].
    destruct (skipn k m) as [|frac [|? ?]]; try discriminate.
    exists (firstn k m), frac. simpl in Hd2. rewrite andb_true_r in Hd2.
    split; [reflexivity|]. split; [|split; [assumption|split; [assumption|]]].
    + intros E. rewrite E in Hfirst. simpl in Hfirst. unfold k in Hfirst. lia.
    + now rewrite Hsplit.
Qed.

(** [toFixed(1)] of a number between 0 and 1000: digits, a point and one
    more digit, which read as the multiple of 1/10 nearest to the
    number. *)
Lemma toFixed1_rounds (x : Q) :
  (0 <= x)%Q -> (x <= 1000)%Q ->
  exists whole frac n,
    toFixed1 (Num x) = Some (whole ++ js "." ++ [frac])
    /\ whole <> [] /\ forallb is_digit whole = true /\ is_digit frac = true
    /\ decimal_value 0 (whole ++ [frac]) = Some n
    /\ (x - (1 # 20) <= inject_Z (Z.of_N n) * (1 # 10))%Q
    /\ (inject_Z (Z.of_N n) * (1 # 10) <= x + (1 # 20))%Q.
Proof.
  intros H0 H1000. unfold toFixed1.
  rewrite (proj2 (Qle_bool_iff 0 x) H0).
  destruct (Qle_bool (inject_Z (10 ^ 21)) x) eqn:E.
  - apply Qle_bool_iff in E.
    assert (1000 < inject_Z (10 ^ 21))%Q by reflexivity. lra.
  - set (f := Qfloor (x * inject_Z 10 + (1 # 2))).
    destruct (point_before_last_digit (N_toString (Z.to_N f))
                (N_toString_nonempty _) (digits_are_digits _))
      as (whole & frac & Heq & Hn & Hw & Hf & Hval).
    exists whole, frac, (Z.to_N f).
    split; [cbv zeta in Heq; cbv zeta; rewrite app_nil_l; now rewrite Heq|].
    split; [exact Hn|]. split; [exact Hw|]. split; [exact Hf|].
    split; [now rewrite Hval, decimal_value_N_toString|].
    pose proof (Qfloor_le (x * inject_Z 10 + (1 # 2))) as Hlo.
    pose proof (Qlt_floor (x * inject_Z 10 + (1 # 2))) as Hhi.
    fold f in Hlo, Hhi.
    assert (Hf0 : (0 <= f)%Z).
    { apply (Qfloor_resp_le 0). change (inject_Z 10) with 10%Q. lra. }
    rewrite Z2N.id by exact Hf0.
    rewrite inject_Z_plus in Hhi.
    change (inject_Z 1) with 1%Q in Hhi. change (inject_Z 10) with 10%Q in *.
    split; lra.
Qed.

(** The rows of the ranking table, for entries whose win rate lies
    between 0 and 1. *)
Lemma ranking_rows_from (l : list PlayerStat) (index : nat) :
  Forall (fun p => exists q, winRate p = Num q /\ (0 <= q)%Q /\ (q <= 1)%Q) l ->
  exists rows,
    all_some (map_index ranking_row index l) = Some rows
    /\ length rows = length l
    /\ forall i p, nth_error l i = Some p ->
         exists whole frac q x n,
           nth_error rows i
           = Some (js "| " ++ N_toString (N.of_nat (index + i + 1)) ++ js " | "
                   ++ player p ++ js " | " ++ N_toString (win p) ++ js " | "
                   ++ N_toString (lose p) ++ js " | " ++ N_toString (total p)
                   ++ js " | " ++ (whole ++ js "." ++ [frac]) ++ js "% |")
           /\ whole <> [] /\ forallb is_digit whole = true /\ is_digit frac = true
           /\ winRate p = Num q
           /\ mul (winRate p) (of_N 100) = Num x
           /\ (q * 100 - (1 # 1000000000000) <= x)%Q
           /\ (x <= q * 100 + (1 # 1000000000000))%Q
           /\ decimal_value 0 (whole ++ [frac]) = Some n
           /\ (x - (1 # 20) <= inject_Z (Z.of_N n) * (1 # 10))%Q
           /\ (inject_Z (Z.of_N n) * (1 # 10) <= x + (1 # 20))%Q.
Proof.
  intros H. revert index. induction H as [|p l (q & Hq & H0 & H1) Hl IH]; intros index.
  - exists []. repeat split; auto. intros [|i] p; discriminate.
  - cbn [map_index all_some].
    destruct (percentage_near q H0 H1) as (x & Hx & Hx0 & Hx1000 & Hxlo & Hxhi).
    destruct (toFixed1_rounds x Hx0 Hx1000)
      as (whole & frac & n & Hfix & Hn & Hw & Hf & Hval & Hnlo & Hnhi).
    unfold ranking_row at 1. rewrite Hq, Hx, Hfix.
    destruct (IH (S index)) as (rows & -> & Hlen & Hrows).
    eexists. split; [reflexivity|]. split; [simpl; now rewrite Hlen|].
    intros [|i] p' Hp'; simpl in Hp'.
    + injection Hp' as <-. exists whole, frac, q, x, n.
      rewrite Nat.add_0_r, Hq. simpl nth_error. tauto.
    + destruct (Hrows i p' Hp') as (w' & f' & q' & x' & n' & Hnth & Hs').
      exists w', f', q', x', n'. simpl nth_error. rewrite Hnth.
      replace (index + S i + 1) with (S index + i + 1) by lia.
      split; [reflexivity|exact Hs'].
Qed.

(** The text of the report: the heading and the head of the ranking
    table, the ranking rows, the head of the recent-matches table, its
    rows, and the instructions with the footer, each piece on lines of
    its own. *)
Lemma generateReadme_text (h : Host) (rankings : list PlayerStat) (matches : list Match) :
  generateReadme h rankings matches
  = option_map
      (fun rows =>
         join newline ranking_header ++ newline ++ join newline rows
         ++ flat_map (fun l => newline ++ l) history_header
         ++ newline ++ join newline (history_rows h matches)
         ++ flat_map (fun l => newline ++ l) (instructions ++ footer h))
      (ranking_rows rankings).
Proof.
  unfold generateReadme.
  destruct (ranking_rows rankings) as [rows|]; [|reflexivity].
  cbn [option_map]. f_equal.
Qed.

Lemma calculateRankings_rows (matches : list Match) (realm : Realm) :
  exists rankings realm' rows,
    calculateRankings matches realm = (Return (rankings, matches), realm')
    /\ ranking_rows rankings = Some rows.
Proof.
  destruct (calculateRankings_returns matches realm) as (rankings & realm' & H & _ & Hperm).
  destruct (ranking_rows_from rankings 0) as (rows & Hrows & _).
  { apply Forall_forall. intros p Hp.
    apply (Permutation_in _ Hperm), to_stat_entry in Hp
      as (_ & _ & _ & _ & _ & q & Hq & _ & H0 & H1).
    exists q. auto. }
  exists rankings, realm', rows. auto.
Qed.

(** C8.  The report is produced, and its ranking table holds one row for
    each entry of the ranking, in the order of the ranking, right below
    the head of the table.  The row at place [i] (from 0) starts with the
    position [i + 1] and lists the player, the wins, the losses, the
    total and the win rate.  The win rate is printed as digits, a point,
    one digit and the percent sign; the number so printed is the multiple
    of 0.1 nearest to the product of the win rate and 100 as the program
    computes it, which is [100 * win / total] up to 10^-12. *)
Theorem ranking_table_rows (h : Host) (matches : list Match) (realm : Realm) :
  exists rankings realm' rows readme,
    calculateRankings matches realm = (Return (rankings, matches), realm')
    /\ ranking_rows rankings = Some rows
    /\ length rows = length rankings
    /\ generateReadme h rankings matches = Some readme
    /\ readme
       = join newline ranking_header ++ newline ++ join newline rows
         ++ flat_map (fun l => newline ++ l) history_header
         ++ newline ++ join newline (history_rows h matches)
         ++ flat_map (fun l => newline ++ l) (instructions ++ footer h)
    /\ forall i p, nth_error rankings i = Some p ->
         exists whole frac x n,
           nth_error rows i
           = Some (js "| " ++ N_toString (N.of_nat (i + 1)) ++ js " | "
                   ++ player p ++ js " | " ++ N_toString (win p) ++ js " | "
                   ++ N_toString (lose p) ++ js " | " ++ N_toString (total p)
                   ++ js " | " ++ (whole ++ js "." ++ [frac]) ++ js "% |")
           /\ whole <> [] /\ forallb is_digit whole = true /\ is_digit frac = true
           /\ mul (winRate p) (of_N 100) = Num x
           /\ (inject_Z (Z.of_N (win p)) / inject_Z (Z.of_N (total p)) * 100
               - (1 # 1000000000000) <= x)%Q
           /\ (x <= inject_Z (Z.of_N (win p)) / inject_Z (Z.of_N (total p)) * 100
                    + (1 # 1000000000000))%Q
           /\ decimal_value 0 (whole ++ [frac]) = Some n
           /\ (x - (1 # 20) <= inject_Z (Z.of_N n) * (1 # 10))%Q
           /\ (inject_Z (Z.of_N n) * (1 # 10) <= x + (1 # 20))%Q.
Proof.
  destruct (calculateRankings_returns matches realm) as (rankings & realm' & H & _ & Hperm).
  destruct (ranking_rows_from rankings 0) as (rows & Hrows & Hlen & Hnth).
  { apply Forall_forall. intros p Hp.
    apply (Permutation_in _ Hperm), to_stat_entry in Hp
      as (_ & _ & _ & _ & _ & q & Hq & _ & H0 & H1).
    exists q. auto. }
  exists rankings, realm', rows. eexists.
  split; [exact H|]. split; [exact Hrows|]. split; [exact Hlen|].
  split; [rewrite generateReadme_text; unfold ranking_rows in Hrows |- *;
          rewrite Hrows; reflexivity|].
  split; [reflexivity|].
  intros i p Hp.
  destruct (Hnth i p Hp) as (whole & frac & q & x & n & Hrow & Hn & Hw & Hf & Hq & Hx
                             & Hxlo & Hxhi & Hval & Hnlo & Hnhi).
  assert (Hin : In p (map to_stat (players_of matches)))
    by (apply (Permutation_in _ Hperm); eapply nth_error_In; exact Hp).
  apply to_stat_entry in Hin as (_ & _ & _ & _ & _ & q' & Hq' & Hqv & _).
  rewrite Hq in Hq'. injection Hq' as <-. rewrite <- Hqv.
  exists whole, frac, x, n. simpl in Hrow. tauto.
Qed.


(* ================================================================== *)
(** * Names that are keys of [Object.prototype] *)

(** C3.  A player called [constructor] wins a match and is absent from the
    ranking: [players.constructor] is the inherited [Object] function, so
    no entry is created for the name.  The ranking holds Bob alone. *)
Theorem inherited_name_missing_from_ranking :
  getMatchResults (Return [constructor_comment]) [] = Some ([constructor_match], [])
  /\ appears (js "constructor") [constructor_match]
  /\ fst (calculateRankings [constructor_match] pristine)
     = Return ([ {| player := js "Bob"; win := 0; lose := 1; total := 1;
                    winRate := Num 0 |} ],
               [constructor_match]).
Proof.
  split; [vm_compute; reflexivity|]. split.
  - exists constructor_match. split; [now left|now left].
  - vm_compute. reflexivity.
Qed.

(** C9.  The win of a player called [constructor] is counted nowhere: one
    match is recorded, the losses of the ranking add up to 1 and its wins
    to 0. *)
Theorem inherited_winner_win_not_counted :
  exists rankings realm',
    calculateRankings [constructor_match] pristine
    = (Return (rankings, [constructor_match]), realm')
    /\ length [constructor_match] = 1
    /\ sum_losses rankings = 1%N
    /\ sum_wins rankings = 0%N.
Proof.
  eexists. eexists. split; [vm_compute; reflexivity|].
  repeat split.
Qed.

(** C7.  Recording a win of a player called [constructor] writes to the
    global [Object] function: after the call it carries a [win] property
    (NaN) that the pristine realm does not have. *)
Theorem inherited_name_changes_realm :
  snd (calculateRankings [constructor_match] pristine) = [(js "constructor", Win)]
  /\ snd (calculateRankings [constructor_match] pristine) <> pristine.
Proof.
  split; [vm_compute; reflexivity|]. vm_compute. discriminate.
Qed.

Lemma appears_cons (k : jsstring) (m : Match) (ms : list Match) :
  appears k (m :: ms) <-> (winner m = k \/ loser m = k) \/ appears k ms.
Proof.
  unfold appears. split.
  - intros (x & [<-|Hin] & H); [now left|right; eauto].
  - intros [H|(x & Hin & H)]; [exists m|exists x]; simpl; auto.
Qed.

Lemma appears_count (k : jsstring) (matches : list Match) :
  appears k matches <-> (0 < count_wins k matches + count_losses k matches)%N.
Proof.
  induction matches as [|m ms IH].
  - unfold appears, count_wins, count_losses. simpl. split; [intros (x & [] & _)|lia].
  - rewrite appears_cons, IH, count_wins_cons, count_losses_cons.
    destruct (jsstring_eqb k (winner m)) eqn:Ew;
      [apply jsstring_eqb_eq in Ew|apply jsstring_eqb_neq in Ew];
      (destruct (jsstring_eqb k (loser m)) eqn:El;
       [apply jsstring_eqb_eq in El|apply jsstring_eqb_neq in El]);
      split; try lia; auto.
    intros [[E|E]|H]; [congruence|congruence|lia].
Qed.

Lemma field_sum_app (f : field) (p q : Players) :
  field_sum f (p ++ q) = (field_sum f p + field_sum f q)%N.
Proof.
  unfold field_sum. induction p as [|e p IH]; simpl; [reflexivity|].
  rewrite IH. lia.
Qed.

Lemma field_sum_initialize (f : field) (players : Players) (realm : Realm)
    (name : jsstring) :
  field_sum f (initialize players realm name) = field_sum f players.
Proof.
  rewrite initialize_known. destruct (known players name); [reflexivity|].
  rewrite field_sum_app. unfold field_sum at 2. destruct f; simpl; lia.
Qed.

Lemma field_sum_update_own (g f : field) (players : Players) (name : jsstring) :
  field_sum g (update_own players name f)
  = (field_sum g players
     + if field_eqb f g then match own players name with Some _ => 1 | None => 0 end
       else 0)%N.
Proof.
  unfold field_sum. induction players as [|[n x] players IH]; simpl.
  - destruct (field_eqb f g); reflexivity.
  - destruct (jsstring_eqb name n); simpl.
    + destruct f, g; simpl; lia.
    + rewrite IH. lia.
Qed.

Lemma own_plain_credited (players : Players) (m : Match) :
  own_plain players -> own_plain (credited players m).
Proof.
  intros H k s. rewrite own_credited.
  destruct (own players k) as [s'|] eqn:Ho; [intros _; now apply (H k s')|].
  destruct (inherited k); [|reflexivity].
  rewrite andb_false_r. discriminate.
Qed.

Lemma own_plain_fold (matches : list Match) (players : Players) :
  own_plain players -> own_plain (fold_left credited matches players).
Proof.
  revert players. induction matches as [|m ms IH]; intros players H; simpl; [exact H|].
  now apply IH, own_plain_credited.
Qed.

(** One match adds one win, unless the winner is a key of
    [Object.prototype], and one loss, unless the loser is. *)
Lemma field_sum_credited (players : Players) (m : Match) :
  own_plain players ->
  field_sum Win (credited players m)
  = (field_sum Win players + if inherited (winner m) then 0 else 1)%N
  /\ field_sum Lose (credited players m)
     = (field_sum Lose players + if inherited (loser m) then 0 else 1)%N.
Proof.
  intros Hp. unfold credited.
  rewrite !field_sum_update_own, !field_sum_initialize. simpl field_eqb. cbv iota.
  rewrite own_update_own, !own_initialize, !jsstring_eqb_refl.
  split.
  - rewrite N.add_0_r. f_equal.
    destruct (own players (winner m)) as [s|] eqn:Ho.
    + now rewrite (Hp _ _ Ho).
    + destruct (inherited (winner m)); simpl; [|reflexivity].
      now rewrite andb_false_r.
  - rewrite N.add_0_r. f_equal.
    destruct (own players (loser m)) as [s|] eqn:Ho.
    + rewrite (Hp _ _ Ho). now destruct (jsstring_eqb (loser m) (winner m)).
    + destruct (inherited (loser m)); simpl.
      * rewrite andb_false_r. now destruct (jsstring_eqb (loser m) (winner m)).
      * rewrite andb_true_r.
        now destruct (jsstring_eqb (loser m) (winner m)).
Qed.

Lemma field_sum_fold (matches : list Match) (players : Players) :
  own_plain players ->
  field_sum Win (fold_left credited matches players)
  = (field_sum Win players + N.of_nat (counted_wins matches))%N
  /\ field_sum Lose (fold_left credited matches players)
     = (field_sum Lose players + N.of_nat (counted_losses matches))%N.
Proof.
  revert players. induction matches as [|m ms IH]; intros players Hp.
  - unfold counted_wins, counted_losses. simpl. split; lia.
  - cbn [fold_left].
    destruct (IH _ (own_plain_credited players m Hp)) as [-> ->].
    destruct (field_sum_credited players m Hp) as [-> ->].
    unfold counted_wins, counted_losses. simpl.
    destruct (inherited (winner m)), (inherited (loser m)); simpl length; split; lia.
Qed.

Lemma sum_perm (l l' : list N) :
  Permutation l l' -> fold_right N.add 0%N l = fold_right N.add 0%N l'.
Proof. induction 1; simpl; lia. Qed.

(* ================================================================== *)
(** * What the aggregator guarantees *)

(** X1.  Every entry of the ranking has [total = win + lose], has played at
    least one match, and has the win rate [win / total], a number between
    0 and 1. *)
Theorem ranking_entry_invariant (matches : list Match) (realm : Realm) :
  exists rankings realm',
    calculateRankings matches realm = (Return (rankings, matches), realm')
    /\ forall p, In p rankings ->
         total p = (win p + lose p)%N
         /\ (0 < total p)%N
         /\ exists q, winRate p = Num q
                      /\ q = (inject_Z (Z.of_N (win p)) / inject_Z (Z.of_N (total p)))%Q
                      /\ (0 <= q)%Q /\ (q <= 1)%Q.
Proof.
  destruct (calculateRankings_returns matches realm) as (rankings & realm' & H & _ & Hperm).
  exists rankings, realm'. split; [exact H|].
  intros p Hp. apply (Permutation_in _ Hperm), to_stat_entry in Hp.
  tauto.
Qed.

Lemma calculateRankings_players (matches : list Match) (realm : Realm) :
  exists rankings realm',
    calculateRankings matches realm = (Return (rankings, matches), realm')
    /\ NoDup (map player rankings)
    /\ (forall name,
          In name (map player rankings)
          <-> appears name matches /\ inherited name = false)
    /\ (forall p, In p rankings ->
          win p = count_wins (player p) matches
          /\ lose p = count_losses (player p) matches).
Proof.
  destruct (calculateRankings_returns matches realm) as (rankings & realm' & H & _ & Hperm).
  exists rankings, realm'. split; [exact H|].
  assert (Hkeys : map player (map to_stat (players_of matches))
                  = map fst (players_of matches)).
  { rewrite map_map. apply map_ext. now intros [k s]. }
  split; [|split].
  - eapply Permutation_NoDup.
    + symmetry. apply Permutation_map. exact Hperm.
    + rewrite Hkeys. apply players_of_keys.
  - intros name. rewrite appears_count. split.
    + intros Hin. apply in_map_iff in Hin as (p & <- & Hp).
      apply (Permutation_in _ Hperm), in_map_iff in Hp as ([k s] & <- & Hks).
      apply players_of_entry in Hks as (Hi & Hc & _). simpl. auto.
    + intros [Hc Hi]. apply in_map_iff.
      exists (to_stat (name, {| stats.win := count_wins name matches;
                                stats.lose := count_losses name matches |})).
      split; [reflexivity|].
      apply (Permutation_in _ (Permutation_sym Hperm)), in_map.
      apply players_of_entry. auto.
  - intros p Hp. apply (Permutation_in _ Hperm), to_stat_entry in Hp. tauto.
Qed.

Lemma calculateRankings_sums (matches : list Match) (realm : Realm) :
  exists rankings realm',
    calculateRankings matches realm = (Return (rankings, matches), realm')
    /\ sum_wins rankings = N.of_nat (counted_wins matches)
    /\ sum_losses rankings = N.of_nat (counted_losses matches).
Proof.
  destruct (calculateRankings_returns matches realm) as (rankings & realm' & H & _ & Hperm).
  exists rankings, realm'. split; [exact H|].
  assert (Hplain : own_plain []) by (intros k s; discriminate).
  destruct (field_sum_fold matches [] Hplain) as [Hw Hl].
  fold (players_of matches) in Hw, Hl. unfold field_sum in Hw, Hl. simpl in Hw, Hl.
  unfold sum_wins, sum_losses. split.
  - rewrite (sum_perm _ _ (Permutation_map win Hperm)), map_map, <- Hw.
    f_equal. apply map_ext. now intros [k s].
  - rewrite (sum_perm _ _ (Permutation_map lose Hperm)), map_map, <- Hl.
    f_equal. apply map_ext. now intros [k s].
Qed.

(** X2.  The players of the ranking are the names in the matches that are no
    keys of [Object.prototype], each once, with the number of matches won
    and lost. *)
Theorem ranking_players (matches : list Match) (realm : Realm) :
  exists rankings realm',
    calculateRankings matches realm = (Return (rankings, matches), realm')
    /\ NoDup (map player rankings)
    /\ (forall name,
          In name (map player rankings)
          <-> appears name matches /\ inherited name = false)
    /\ (forall p, In p rankings ->
          win p = count_wins (player p) matches
          /\ lose p = count_losses (player p) matches).
Proof. exact (calculateRankings_players matches realm). Qed.

(** X3.  The wins of the ranking add up to the number of matches whose winner
    is no key of [Object.prototype], the losses to the number of matches
    whose loser is none. *)
Theorem ranking_sums (matches : list Match) (realm : Realm) :
  exists rankings realm',
    calculateRankings matches realm = (Return (rankings, matches), realm')
    /\ sum_wins rankings = N.of_nat (counted_wins matches)
    /\ sum_losses rankings = N.of_nat (counted_losses matches).
Proof. exact (calculateRankings_sums matches realm). Qed.

Lemma plain_names_counted (matches : list Match) :
  plain_names matches ->
  counted_wins matches = length matches /\ counted_losses matches = length matches.
Proof.
  unfold counted_wins, counted_losses.
  induction matches as [|m ms IH]; intros H; [auto|].
  destruct (H m (or_introl eq_refl)) as [Hw Hl].
  destruct IH as [IHw IHl]; [intros x Hx; apply H; now right|].
  simpl. rewrite Hw, Hl. simpl. auto.
Qed.

(** X4.  When no name is a key of [Object.prototype], every match counts: the
    wins and the losses of the ranking both add up to the number of
    matches, and the players are exactly the names in the matches. *)
Theorem plain_names_every_match_counts (matches : list Match) (realm : Realm) :
  plain_names matches ->
  exists rankings realm',
    calculateRankings matches realm = (Return (rankings, matches), realm')
    /\ sum_wins rankings = N.of_nat (length matches)
    /\ sum_losses rankings = N.of_nat (length matches)
    /\ forall name, In name (map player rankings) <-> appears name matches.
Proof.
  intros Hplain.
  destruct (calculateRankings_sums matches realm) as (rankings & realm' & H & Hw & Hl).
  destruct (calculateRankings_players matches realm)
    as (rankings' & realm'' & H' & _ & Hn & _).
  rewrite H in H'. injection H' as <- <-.
  destruct (plain_names_counted matches Hplain) as [Cw Cl].
  exists rankings, realm'. rewrite <- Cw at 1. rewrite <- Cl at 1.
  repeat split; auto.
  - intros Hin. now apply Hn in Hin.
  - intros Ha. apply Hn. split; [exact Ha|].
    destruct Ha as (m & Hm & [<-|<-]); now apply Hplain in Hm.
Qed.

Lemma plain_names_every_match_counts_witness :
  exists rankings realm',
    calculateRankings
      [ {| winner := js "Thomas"; loser := js "Raymond"; date := js "d1" |};
        {| winner := js "Jerry"; loser := js "Kyle"; date := js "d2" |};
        {| winner := js "Thomas"; loser := js "Jerry"; date := js "d3" |} ] pristine
    = (Return (rankings,
               [ {| winner := js "Thomas"; loser := js "Raymond"; date := js "d1" |};
                 {| winner := js "Jerry"; loser := js "Kyle"; date := js "d2" |};
                 {| winner := js "Thomas"; loser := js "Jerry"; date := js "d3" |} ]),
       realm')
    /\ sum_wins rankings = 3%N
    /\ sum_losses rankings = 3%N
    /\ forall name,
         In name (map player rankings)
         <-> appears name
               [ {| winner := js "Thomas"; loser := js "Raymond"; date := js "d1" |};
                 {| winner := js "Jerry"; loser := js "Kyle"; date := js "d2" |};
                 {| winner := js "Thomas"; loser := js "Jerry"; date := js "d3" |} ].
Proof.
  apply (plain_names_every_match_counts
           [ {| winner := js "Thomas"; loser := js "Raymond"; date := js "d1" |};
             {| winner := js "Jerry"; loser := js "Kyle"; date := js "d2" |};
             {| winner := js "Thomas"; loser := js "Jerry"; date := js "d3" |} ] pristine).
  intros m [<-|[<-|[<-|[]]]]; vm_compute; auto.
Defined.

(** X5.  The ranking does not depend on the realm: a second run, started in
    the realm the first one left, returns the same ranking and the same
    list of matches. *)
Theorem second_run_same_ranking (matches : list Match) (realm : Realm) :
  exists rankings realm' realm'',
    calculateRankings matches realm = (Return (rankings, matches), realm')
    /\ calculateRankings matches realm' = (Return (rankings, matches), realm'').
Proof.
  destruct (calculateRankings_returns matches realm) as (r1 & g1 & H1 & -> & _).
  destruct (calculateRankings_returns matches g1) as (r2 & g2 & H2 & -> & _).
  eauto.
Qed.

Lemma record_match_plain (players : Players) (realm : Realm) (m : Match) :
  inherited (winner m) = false -> inherited (loser m) = false ->
  record_match players realm m = (Return (credited players m), realm).
Proof.
  intros Hw Hl. unfold record_match, credited.
  rewrite (initialize_realm players realm pristine).
  rewrite (initialize_realm _ realm pristine).
  rewrite increment_known
    by (apply known_initialize_mono, known_initialize).
  rewrite increment_known
    by (rewrite known_update_own; apply known_initialize).
  unfold touch. rewrite own_update_own, !own_initialize, !jsstring_eqb_refl, Hw, Hl.
  destruct (own players (winner m)), (own players (loser m)),
    (jsstring_eqb (loser m) (winner m)), (jsstring_eqb (winner m) (loser m));
    reflexivity.
Qed.

Lemma forEach_match_plain (matches : list Match) (players : Players) (realm : Realm) :
  plain_names matches ->
  forEach_match matches players realm = (Return (fold_left credited matches players), realm).
Proof.
  revert players. induction matches as [|m ms IH]; intros players H; simpl; [reflexivity|].
  destruct (H m (or_introl eq_refl)) as [Hw Hl].
  rewrite (record_match_plain players realm m Hw Hl).
  apply IH. intros x Hx. apply H. now right.
Qed.

(** X6.  When no name is a key of [Object.prototype], the aggregator leaves the
    realm as it found it: it has no effect beyond its result. *)
Theorem plain_names_no_side_effect (matches : list Match) (realm : Realm) :
  plain_names matches ->
  exists rankings,
    calculateRankings matches realm = (Return (rankings, matches), realm).
Proof.
  intros H. unfold calculateRankings.
  rewrite (forEach_match_plain matches [] realm H). eauto.
Qed.

Lemma plain_names_no_side_effect_witness :
  exists rankings,
    calculateRankings
      [ {| winner := js "Thomas"; loser := js "Raymond"; date := js "d1" |};
        {| winner := js "Jerry"; loser := js "Kyle"; date := js "d2" |} ]
      [(js "toString", Lose)]
    = (Return (rankings,
               [ {| winner := js "Thomas"; loser := js "Raymond"; date := js "d1" |};
                 {| winner := js "Jerry"; loser := js "Kyle"; date := js "d2" |} ]),
       [(js "toString", Lose)]).
Proof.
  apply (plain_names_no_side_effect
           [ {| winner := js "Thomas"; loser := js "Raymond"; date := js "d1" |};
             {| winner := js "Jerry"; loser := js "Kyle"; date := js "d2" |} ]
           [(js "toString", Lose)]).
  intros m [<-|[<-|[]]]; vm_compute; auto.
Defined.

(* ================================================================== *)
(** * The run as a whole *)

(** X7.  [main] always settles.  Without records it fulfils and writes
    nothing.  With records the ranking and the report exist; the report
    is written to README.md and [main] fulfils, unless
    [fs.writeFileSync] throws: then [main] rejects with that error, and
    README.md is as it was when opening failed, or holds what reached the
    disk when writing failed. *)
Theorem main_settles (h : Host) (listComments : Completion (list Comment)) (w : World) :
  exists matches console' w',
    getMatchResults listComments (console (log w (js "Start updating rankings...")))
    = Some (matches, console')
    /\ match matches with
       | [] => main h listComments w = Some (Return tt, w') /\ files w' = files w
       | _ :: _ =>
           exists rankings realm' readme,
             calculateRankings matches (globals w) = (Return (rankings, matches), realm')
             /\ generateReadme h rankings matches = Some readme
             /\ match writeFileSync_error h with
                | None =>
                    main h listComments w = Some (Return tt, w')
                    /\ files w' = write_file (js "README.md") readme (files w)
                | Some (OpenFailed e) =>
                    main h listComments w = Some (Throw e, w')
                    /\ files w' = files w
                | Some (WriteFailed e on_disk) =>
                    main h listComments w = Some (Throw e, w')
                    /\ files w' = write_file (js "README.md") on_disk (files w)
                end
       end.
Proof.
  destruct (getMatchResults_total listComments
              (console (log w (js "Start updating rankings...")))) as (ms & c' & Hg).
  exists ms, c'. unfold main. rewrite Hg.
  destruct ms as [|m ms].
  - eexists. split; [reflexivity|]. split; reflexivity.
  - cbn [length Nat.eqb].
    destruct (calculateRankings_rows (m :: ms) (globals w))
      as (rankings & realm' & rows & Hc & Hrows).
    assert (Hr : exists readme, generateReadme h rankings (m :: ms) = Some readme)
      by (unfold generateReadme; rewrite Hrows; eauto).
    destruct Hr as [readme Hr].
    cbn [globals log console files]. rewrite Hc, Hr.
    destruct (writeFileSync_error h) as [[e|e on_disk]|];
      eexists; (split; [reflexivity|]); exists rankings, realm', readme;
      (split; [reflexivity|]); (split; [exact Hr|]); split; reflexivity.
Qed.

(* ================================================================== *)
(** * More on the extraction loop *)

(** The records found do not depend on the records found before. *)
Lemma while_exec_acc (re : pattern) (comment : Comment) (fuel lastIndex : nat)
    (matches : list Match) :
  while_exec fuel re comment lastIndex matches
  = option_map (fun r => (fst r, matches ++ snd r))
      (while_exec fuel re comment lastIndex []).
Proof.
  revert lastIndex matches. induction fuel as [|fuel IH]; intros li ms; [reflexivity|].
  simpl. destruct (exec re li (body comment)) as [[[g1 g2]|] li'].
  - rewrite IH. rewrite (IH li' [_]).
    destruct (while_exec fuel re comment li' []) as [[i r]|]; simpl; [|reflexivity].
    now rewrite <- app_assoc.
  - simpl. now rewrite app_nil_r.
Qed.

Lemma records_of_total (re : pattern) (comment : Comment) :
  productive re ->
  exists found,
    records_of re comment = Some found
    /\ forall matches,
         while_exec (S (length (body comment))) re comment 0 matches
         = Some (0, matches ++ found).
Proof.
  intros Hp. unfold records_of.
  destruct (while_exec_total re comment Hp (S (length (body comment))) 0 [])
    as (found & H0 & _); [lia|].
  exists found. rewrite H0. split; [reflexivity|].
  intros ms. rewrite while_exec_acc, H0. reflexivity.
Qed.

Lemma forEach_comment_concat (re : pattern) (comments : list Comment) :
  productive re ->
  forall matches,
  exists per_comment lastIndex,
    Forall2 (fun c r => records_of re c = Some r) comments per_comment
    /\ forEach_comment re comments 0 matches = Some (lastIndex, matches ++ concat per_comment).
Proof.
  intros Hp. induction comments as [|c cs IH]; intros ms.
  - exists [], 0. simpl. rewrite app_nil_r. auto.
  - destruct (records_of_total re c Hp) as (found & Hr & Hw).
    destruct (IH (ms ++ found)) as (per & li & Hper & Hfe).
    exists (found :: per), li. split; [now constructor|].
    cbn [forEach_comment]. rewrite Hw, Hfe.
    simpl. now rewrite app_assoc.
Qed.

(** X8.  The expression object is shared by all comments, yet each comment
    is scanned from its start: the loop leaves [lastIndex] at 0.  The
    records returned are the records of each comment scanned on its own,
    joined in the order of the comments. *)
Theorem comments_are_scanned_one_by_one (comments : list Comment)
    (console : list LogEntry) :
  exists per_comment,
    Forall2 (fun c r => records_of matchPattern c = Some r) comments per_comment
    /\ getMatchResults (Return comments) console = Some (concat per_comment, console).
Proof.
  destruct (forEach_comment_concat matchPattern comments matchPattern_productive [])
    as (per & li & Hper & Hfe).
  exists per. split; [exact Hper|].
  unfold getMatchResults. now rewrite Hfe.
Qed.

(** A match of the expression spans at least three code units: a name,
    the separator and a name. *)
Lemma exec_matchPattern_advance (lastIndex lastIndex' : nat) (str g1 g2 : jsstring) :
  exec matchPattern lastIndex str = (Some (g1, g2), lastIndex') ->
  lastIndex + 3 <= lastIndex' /\ lastIndex' <= length str.
Proof.
  unfold exec.
  destruct (length str <? lastIndex) eqn:Hlt; [discriminate|].
  apply Nat.ltb_ge in Hlt.
  destruct (search matchPattern (skipn lastIndex str)) as [[[h1 h2] rest]|] eqn:Hs;
    [|discriminate].
  intros H. injection H as -> -> <-.
  apply search_inv in Hs as (pre & sfx & Hsplit & Hre).
  apply matchPattern_inv in Hre as (sp1 & c & sp2 & -> & Hn1 & _ & _ & _ & _ & Hn2 & _).
  apply (f_equal (@length _)) in Hsplit.
  rewrite length_skipn, !length_app in Hsplit. simpl in Hsplit.
  assert (0 < length g1) by (destruct g1; [contradiction|simpl; lia]).
  assert (0 < length g2) by (destruct g2; [contradiction|simpl; lia]).
  lia.
Qed.

Lemma while_exec_count (comment : Comment) (fuel lastIndex lastIndex' : nat)
    (matches result : list Match) :
  while_exec fuel matchPattern comment lastIndex matches = Some (lastIndex', result) ->
  exists found,
    result = matches ++ found
    /\ 3 * length found + Nat.min lastIndex (length (body comment))
       <= length (body comment).
Proof.
  revert lastIndex matches. induction fuel as [|fuel IH]; intros li ms; [discriminate|].
  simpl. destruct (exec matchPattern li (body comment)) as [[[g1 g2]|] li1] eqn:E.
  - intros H. apply IH in H as (found & -> & Hlen).
    apply exec_matchPattern_advance in E as [Hadv Hle].
    eexists (_ :: found). rewrite <- app_assoc. split; [reflexivity|].
    simpl length. lia.
  - intros H. injection H as _ <-. exists []. rewrite app_nil_r.
    split; [reflexivity|]. simpl. lia.
Qed.

(** X9.  A record takes at least three code units of a comment, so the
    extractor returns at most a third as many records as the comments
    have code units; an empty comment gives none. *)
Theorem records_bounded_by_text (comments : list Comment) (console : list LogEntry) :
  exists matches,
    getMatchResults (Return comments) console = Some (matches, console)
    /\ 3 * length matches <= list_sum (map (fun c => length (body c)) comments).
Proof.
  destruct (forEach_comment_concat matchPattern comments matchPattern_productive [])
    as (per & li & Hper & Hfe).
  exists (concat per). unfold getMatchResults. rewrite Hfe. split; [reflexivity|].
  clear Hfe. induction Hper as [|c r cs per Hr _ IH]; simpl; [lia|].
  rewrite length_app.
  unfold records_of in Hr.
  destruct (while_exec (S (length (body c))) matchPattern c 0 []) as [[i res]|] eqn:E;
    [|discriminate].
  injection Hr as ->.
  apply while_exec_count in E as (found & -> & Hlen).
  cbn [app Nat.min] in *. unfold jsstring, code_unit in *. lia.
Qed.

(* ================================================================== *)
(** * Results written as [A > B] *)

(** A greedy run that can take all of [m], and whose continuation accepts
    that, takes all of [m]. *)
Lemma star_greedy {A : Type} (p : code_unit -> bool) (m rest acc : jsstring)
    (k : cont A) (r : A) :
  forallb p m = true -> stops p rest = true ->
  k (acc ++ m) rest = Some r ->
  star p acc (m ++ rest) k = Some r.
Proof.
  revert acc. induction m as [|c m IH]; intros acc Hm Hstop Hk.
  - rewrite app_nil_r in Hk. simpl.
    destruct rest as [|c rest]; simpl in *; [exact Hk|].
    apply negb_true_iff in Hstop. now rewrite Hstop.
  - simpl in Hm. apply andb_true_iff in Hm as [Hc Hm].
    simpl. rewrite Hc. rewrite (IH (acc ++ [c])); auto.
    now rewrite <- app_assoc.
Qed.

Lemma plus_greedy {A : Type} (p : code_unit -> bool) (m rest : jsstring)
    (k : cont A) (r : A) :
  m <> [] -> forallb p m = true -> stops p rest = true ->
  k m rest = Some r ->
  plus p (m ++ rest) k = Some r.
Proof.
  destruct m as [|c m]; [contradiction|]. intros _ Hm Hstop Hk.
  simpl in Hm. apply andb_true_iff in Hm as [Hc Hm].
  simpl. rewrite Hc. now apply star_greedy.
Qed.

Lemma space_not_word (c : code_unit) : is_space c = true -> is_word c = false.
Proof.
  intros Hs. destruct (is_word c) eqn:Hw; [|reflexivity].
  apply word_not_space in Hw. congruence.
Qed.

Lemma stops_after_spaces (sp rest : jsstring) (p : code_unit -> bool) :
  forallb is_space sp = true ->
  (forall c, is_space c = true -> p c = false) ->
  stops p rest = true -> stops p (sp ++ rest) = true.
Proof.
  destruct sp as [|c sp]; simpl; [auto|].
  intros H Hp _. apply andb_true_iff in H as [Hc _].
  now rewrite (Hp c Hc).
Qed.

Lemma stops_before_token (t rest : jsstring) :
  token t -> stops is_space (t ++ rest) = true.
Proof.
  intros [Hn Hw]. destruct t as [|c t]; [contradiction|].
  simpl in *. apply andb_true_iff in Hw as [Hc _].
  now rewrite (word_not_space c Hc).
Qed.

(** At the head of a well-formed result the expression matches the two
    names, and stops before the separator. *)
Lemma matchPattern_line (l : Line) (rest : jsstring) :
  line_ok l -> stops is_word (separator l ++ rest) = true ->
  matchPattern (render l ++ rest)
  = Some (line_winner l, line_loser l, separator l ++ rest).
Proof.
  intros ([Hn1 Hw1] & [Hn2 Hw2] & Hs1 & Hs2 & _) Hstop.
  unfold render, matchPattern. rewrite <- !app_assoc.
  apply plus_greedy; auto.
  { apply stops_after_spaces; auto using space_not_word. }
  apply star_greedy; auto.
  simpl. apply star_greedy; auto.
  { now apply stops_before_token. }
  apply plus_greedy; auto.
Qed.

Lemma matchPattern_nonword (s : jsstring) :
  stops is_word s = true -> matchPattern s = None.
Proof.
  destruct s as [|c s]; simpl; [reflexivity|].
  intros H. apply negb_true_iff in H. unfold matchPattern. simpl. now rewrite H.
Qed.

(** The search passes over text without word characters. *)
Lemma search_skips_nonword (junk s : jsstring) :
  forallb (fun c => negb (is_word c)) junk = true ->
  search matchPattern (junk ++ s) = search matchPattern s.
Proof.
  induction junk as [|c junk IH]; simpl app; [reflexivity|].
  intros H. simpl in H. apply andb_true_iff in H as [Hc Hj].
  cbn [search]. rewrite matchPattern_nonword by (simpl; exact Hc).
  now apply IH.
Qed.

Lemma search_found (re : pattern) (s : jsstring) (r : captures) :
  re s = Some r -> search re s = Some r.
Proof. intros H. destruct s; simpl; now rewrite H. Qed.

Lemma skipn_length_app {T : Type} (pre s : list T) : skipn (length pre) (pre ++ s) = s.
Proof. induction pre as [|x pre IH]; simpl; auto. Qed.

Lemma exec_at (re : pattern) (pre s : jsstring) :
  exec re (length pre) (pre ++ s)
  = match search re s with
    | Some (g1, g2, rest) => (Some (g1, g2), length (pre ++ s) - length rest)
    | None => (None, 0)
    end.
Proof.
  unfold exec. rewrite skipn_length_app.
  destruct (Nat.ltb_spec (length (pre ++ s)) (length pre)) as [H|_]; [|reflexivity].
  rewrite length_app in H. lia.
Qed.

Lemma render_length (l : Line) : line_ok l -> 3 <= length (render l).
Proof.
  intros ([Hn1 _] & [Hn2 _] & _). unfold render. rewrite !length_app. simpl.
  destruct (line_winner l); [contradiction|].
  destruct (line_loser l); [contradiction|]. simpl. lia.
Qed.

Lemma lines_length (lines : list Line) :
  lines_ok lines -> length lines <= length (flat_map render lines).
Proof.
  induction lines as [|l ls IH]; simpl; [lia|].
  intros (Hl & _ & Hls). rewrite length_app.
  pose proof (render_length l Hl). specialize (IH Hls). lia.
Qed.

(** The loop, standing after [pre] with text without word characters
    ahead, finds the results that follow, one record for each. *)
Lemma scan_lines (created : jsstring) (lines : list Line) :
  lines_ok lines ->
  forall pre junk fuel matches,
    forallb (fun c => negb (is_word c)) junk = true ->
    length lines < fuel ->
    while_exec fuel matchPattern
      {| body := pre ++ junk ++ flat_map render lines; created_at := created |}
      (length pre) matches
    = Some (0, matches ++ map (record_of_line created) lines).
Proof.
  induction lines as [|l ls IH]; intros Hok pre junk fuel ms Hjunk Hfuel;
    (destruct fuel as [|fuel]; [simpl in Hfuel; lia|]); cbn [while_exec body created_at].
  - rewrite exec_at, search_skips_nonword by exact Hjunk.
    simpl. now rewrite app_nil_r.
  - destruct Hok as (Hl & Hlast & Hls).
    rewrite exec_at, search_skips_nonword by exact Hjunk.
    cbn [flat_map].
    assert (Hstop : stops is_word (separator l ++ flat_map render ls) = true).
    { destruct Hl as (_ & _ & _ & _ & Hsep).
      destruct (separator l) as [|c sep] eqn:E.
      - rewrite (Hlast eq_refl). reflexivity.
      - simpl in *. now apply andb_true_iff in Hsep as [-> _]. }
    rewrite (search_found _ _ _ (matchPattern_line l _ Hl Hstop)).
    destruct Hl as ([_ Hw1] & [_ Hw2] & Hrest).
    rewrite (trim_word _ Hw1), (trim_word _ Hw2).
    set (pre' := pre ++ junk ++ line_winner l ++ before_gt l ++ js ">"
                 ++ after_gt l ++ line_loser l).
    assert (Hbody : pre ++ junk ++ render l ++ flat_map render ls
                    = pre' ++ separator l ++ flat_map render ls).
    { unfold pre', render. now rewrite <- !app_assoc. }
    rewrite Hbody.
    replace (length (pre' ++ separator l ++ flat_map render ls)
             - length (separator l ++ flat_map render ls)) with (length pre')
      by (rewrite (length_app pre'); lia).
    rewrite IH; auto.
    + rewrite <- app_assoc. reflexivity.
    + tauto.
    + simpl in Hfuel. lia.
Qed.

(** X10.  A comment that lists results in the documented format [A > B],
    with any white space around the [>] and any text without word
    characters before, between and after them, gives exactly these
    results, in order, dated with the comment. *)
Theorem documented_format_is_extracted (created junk : jsstring) (lines : list Line)
    (console : list LogEntry) :
  lines_ok lines ->
  forallb (fun c => negb (is_word c)) junk = true ->
  getMatchResults
    (Return [{| body := junk ++ flat_map render lines; created_at := created |}]) console
  = Some (map (record_of_line created) lines, console).
Proof.
  intros Hok Hjunk. unfold getMatchResults. cbn [forEach_comment body].
  rewrite (scan_lines created lines Hok [] junk _ [] Hjunk).
  - reflexivity.
  - pose proof (lines_length lines Hok). rewrite length_app. lia.
Qed.

Lemma documented_format_is_extracted_witness :
  getMatchResults
    (Return [{| body := js "- " ++ flat_map render
                  [ {| line_winner := js "Thomas"; before_gt := js " "; after_gt := js " ";
                       line_loser := js "Raymond"; separator := js ", " |};
                    {| line_winner := js "Jerry"; before_gt := []; after_gt := [];
                       line_loser := js "Kyle"; separator := [] |} ];
                created_at := js "2024-05-01T18:30:00Z" |}]) []
  = Some (map (record_of_line (js "2024-05-01T18:30:00Z"))
            [ {| line_winner := js "Thomas"; before_gt := js " "; after_gt := js " ";
                 line_loser := js "Raymond"; separator := js ", " |};
              {| line_winner := js "Jerry"; before_gt := []; after_gt := [];
                 line_loser := js "Kyle"; separator := [] |} ], []).
Proof.
  apply (documented_format_is_extracted (js "2024-05-01T18:30:00Z") (js "- ")
           [ {| line_winner := js "Thomas"; before_gt := js " "; after_gt := js " ";
                line_loser := js "Raymond"; separator := js ", " |};
             {| line_winner := js "Jerry"; before_gt := []; after_gt := [];
                line_loser := js "Kyle"; separator := [] |} ] []).
  - simpl. unfold line_ok, token. simpl.
    repeat split; try discriminate; reflexivity.
  - reflexivity.
Defined.

(* ================================================================== *)
(** * Results written as [A beat B] *)

Lemma matchPattern_beat (a sp1 sp2 rest : jsstring) :
  token a ->
  sp1 <> [] -> forallb is_space sp1 = true ->
  sp2 <> [] -> forallb is_space sp2 = true ->
  matchPattern (a ++ sp1 ++ js "beat" ++ sp2 ++ rest)
  = Some (a, js "eat", sp2 ++ rest).
Proof.
  intros [Hn Hw] Hn1 Hs1 Hn2 Hs2. unfold matchPattern.
  apply plus_greedy; auto.
  { destruct sp1 as [|c sp1]; [contradiction|]. simpl in *.
    apply andb_true_iff in Hs1 as [Hc _]. now rewrite (space_not_word c Hc). }
  apply star_greedy; auto.
  change (js "beat" ++ sp2 ++ rest) with (98%N :: js "eat" ++ sp2 ++ rest).
  cbn [class]. change (is_sep 98%N) with true. cbv iota.
  apply (star_greedy is_space [] (js "eat" ++ sp2 ++ rest) []); auto.
  apply (plus_greedy is_word (js "eat") (sp2 ++ rest)); auto; [discriminate|].
  destruct sp2 as [|c sp2]; [contradiction|]. simpl in *.
  apply andb_true_iff in Hs2 as [Hc _]. now rewrite (space_not_word c Hc).
Qed.

(** X11.  A result written in the other documented format, [A beat B] with
    white space around the word, is not read as A over B: the letter [b]
    is taken as the separator, and the first record has the winner [A]
    and the loser [eat]. *)
Theorem beat_format_first_record (created a sp1 sp2 rest : jsstring)
    (console : list LogEntry) :
  token a ->
  sp1 <> [] -> forallb is_space sp1 = true ->
  sp2 <> [] -> forallb is_space sp2 = true ->
  exists more,
    getMatchResults
      (Return [{| body := a ++ sp1 ++ js "beat" ++ sp2 ++ rest; created_at := created |}])
      console
    = Some ({| winner := a; loser := js "eat"; date := created |} :: more, console).
Proof.
  intros Ha Hn1 Hs1 Hn2 Hs2. unfold getMatchResults. cbn [forEach_comment body].
  set (c := {| body := a ++ sp1 ++ js "beat" ++ sp2 ++ rest; created_at := created |}).
  cbn [while_exec]. change (body c) with ([] ++ a ++ sp1 ++ js "beat" ++ sp2 ++ rest).
  rewrite (exec_at matchPattern []).
  rewrite (search_found _ _ _ (matchPattern_beat a sp1 sp2 rest Ha Hn1 Hs1 Hn2 Hs2)).
  rewrite (trim_word a (proj2 Ha)), (trim_word (js "eat") eq_refl).
  match goal with
  | |- context [while_exec ?f matchPattern c ?i ?ms] =>
      destruct (while_exec_total matchPattern c matchPattern_productive f i ms)
        as (found & -> & _)
  end.
  - subst c. cbn [body app]. rewrite !length_app.
    destruct Ha as [Hne _]. destruct a; [contradiction|].
    unfold jsstring, code_unit in *. simpl length. lia.
  - exists found. reflexivity.
Qed.

Lemma beat_format_first_record_witness :
  exists more,
    getMatchResults
      (Return [{| body := js "Jerry" ++ js " " ++ js "beat" ++ js " " ++ js "Kyle";
                  created_at := js "2024-05-01T18:30:00Z" |}]) []
    = Some ({| winner := js "Jerry"; loser := js "eat";
               date := js "2024-05-01T18:30:00Z" |} :: more, []).
Proof.
  apply (beat_format_first_record (js "2024-05-01T18:30:00Z") (js "Jerry") (js " ")
           (js " ") (js "Kyle") []).
  - split; [discriminate|reflexivity].
  - discriminate.
  - reflexivity.
  - discriminate.
  - reflexivity.
Defined.

(* ================================================================== *)
(** * The order of the ranking, beyond neighbours *)

Lemma ranks_before_trans (a b c : PlayerStat) :
  ranks_before a b -> ranks_before b c -> ranks_before a c.
Proof.
  intros (qa & qb & Ha & Hb & Hab) (qb' & qc & Hb' & Hc & Hbc).
  rewrite Hb in Hb'. injection Hb' as <-.
  exists qa, qc. split; [exact Ha|]. split; [exact Hc|].
  destruct Hab as [Hab|[Hab Wab]], Hbc as [Hbc|[Hbc Wbc]].
  - left. lra.
  - left. rewrite <- Hbc. exact Hab.
  - left. rewrite Hab. exact Hbc.
  - right. split; [now rewrite Hab|lia].
Qed.

Lemma StronglySorted_nth {T : Type} (R : T -> T -> Prop) (l : list T) :
  StronglySorted R l ->
  forall i j a b, i < j -> nth_error l i = Some a -> nth_error l j = Some b -> R a b.
Proof.
  induction 1 as [|x l Hs IH Hall]; intros i j a b Hij Ha Hb.
  - destruct i; discriminate.
  - destruct j as [|j]; [lia|]. destruct i as [|i]; simpl in *.
    + injection Ha as <-. rewrite Forall_forall in Hall.
      apply Hall. eapply nth_error_In. exact Hb.
    + apply (IH i j); auto. lia.
Qed.

(** X12.  Any entry of the ranking ranks before every entry below it, not
    only before its neighbour: the win rate never rises down the table,
    and among equal win rates the wins never rise.  The first row holds a
    highest win rate. *)
Theorem ranking_is_sorted_throughout (matches : list Match) (realm : Realm) :
  exists rankings realm',
    calculateRankings matches realm = (Return (rankings, matches), realm')
    /\ forall i j a b,
         i < j -> nth_error rankings i = Some a -> nth_error rankings j = Some b ->
         ranks_before a b.
Proof.
  destruct (calculateRankings_returns matches realm) as (rankings & realm' & H & -> & _).
  eexists. exists realm'. split; [exact H|].
  apply StronglySorted_nth, Sorted_StronglySorted.
  - intros a b c. apply ranks_before_trans.
  - apply Array_sort_sorted, Forall_forall. intros p Hp.
    assert (Hin : In p (map to_stat (players_of matches))).
    { eapply Permutation_in; [|exact Hp].
      apply Permutation_map, Object_entries_perm. }
    apply to_stat_entry in Hin as (_ & _ & _ & _ & _ & q & Hq & _). now exists q.
Qed.

(* ================================================================== *)
(** * Ties keep their order *)

Lemma tied_not_positive (p x y : PlayerStat) :
  tied p x = true -> tied p y = true -> positive (compareFn x y) = false.
Proof.
  unfold tied, compareFn.
  destruct (winRate p) as [|qp]; [discriminate|].
  destruct (winRate x) as [|qx]; [discriminate|].
  destruct (winRate y) as [|qy]; [discriminate|].
  intros Hx Hy.
  apply andb_true_iff in Hx as [Ex Wx]. apply andb_true_iff in Hy as [Ey Wy].
  apply Qeq_bool_iff in Ex, Ey. apply N.eqb_eq in Wx, Wy.
  simpl. assert (E : Qeq_bool qy qx = true).
  { apply Qeq_bool_iff. rewrite <- Ex, <- Ey. reflexivity. }
  rewrite E. simpl. rewrite <- Wx, <- Wy.
  apply negb_false_iff, Qle_bool_iff. lra.
Qed.

Lemma sort_insert_tied (p x : PlayerStat) (l : list PlayerStat) :
  filter (tied p) (sort_insert compareFn x l) = filter (tied p) (x :: l).
Proof.
  induction l as [|y l IH]; [reflexivity|].
  cbn [sort_insert]. destruct (positive (compareFn x y)) eqn:E; [|reflexivity].
  cbn [filter] in *. rewrite IH.
  destruct (tied p x) eqn:Hx, (tied p y) eqn:Hy; try reflexivity.
  rewrite (tied_not_positive p x y Hx Hy) in E. discriminate.
Qed.

Lemma Array_sort_tied (p : PlayerStat) (l : list PlayerStat) :
  filter (tied p) (Array_sort compareFn l) = filter (tied p) l.
Proof.
  induction l as [|x l IH]; [reflexivity|].
  cbn [Array_sort]. rewrite sort_insert_tied. cbn [filter]. now rewrite IH.
Qed.

(** X13.  The sort is stable on the ranking: the players tied with a given
    player on win rate and wins stand in the ranking in the order in which
    [Object.entries(players)] lists them. *)
Theorem ties_keep_entry_order (matches : list Match) (realm : Realm) :
  exists players rankings realm',
    forEach_match matches [] realm = (Return players, realm')
    /\ calculateRankings matches realm = (Return (rankings, matches), realm')
    /\ forall p,
         filter (tied p) rankings
         = filter (tied p) (map to_stat (Object_entries players)).
Proof.
  unfold calculateRankings.
  destruct (forEach_match_returns matches [] realm) as (realm' & ->).
  eexists. eexists. exists realm'. split; [reflexivity|]. split; [reflexivity|].
  intros p. apply Array_sort_tied.
Qed.

(* ================================================================== *)
(** * The order of the matches *)

Lemma count_wins_perm (k : jsstring) (ms ms' : list Match) :
  Permutation ms ms' -> count_wins k ms = count_wins k ms'.
Proof.
  induction 1; rewrite ?count_wins_cons; try congruence; lia.
Qed.

Lemma count_losses_perm (k : jsstring) (ms ms' : list Match) :
  Permutation ms ms' -> count_losses k ms = count_losses k ms'.
Proof.
  induction 1; rewrite ?count_losses_cons; try congruence; lia.
Qed.

Lemma players_of_perm (ms ms' : list Match) :
  Permutation ms ms' -> Permutation (players_of ms) (players_of ms').
Proof.
  intros H. apply NoDup_Permutation.
  - apply (NoDup_map_inv fst), players_of_keys.
  - apply (NoDup_map_inv fst), players_of_keys.
  - intros [k s]. rewrite !players_of_entry.
    now rewrite (count_wins_perm k _ _ H), (count_losses_perm k _ _ H).
Qed.

(** X14.  The order in which the matches are recorded does not change any
    player's line: the rankings of two lists of matches that are
    rearrangements of each other hold the same entries.  Only the order
    among tied players can differ. *)
Theorem match_order_does_not_matter (matches matches' : list Match) (realm : Realm) :
  Permutation matches matches' ->
  exists rankings rankings' realm1 realm2,
    calculateRankings matches realm = (Return (rankings, matches), realm1)
    /\ calculateRankings matches' realm = (Return (rankings', matches'), realm2)
    /\ Permutation rankings rankings'.
Proof.
  intros H.
  destruct (calculateRankings_returns matches realm) as (r1 & g1 & H1 & _ & P1).
  destruct (calculateRankings_returns matches' realm) as (r2 & g2 & H2 & _ & P2).
  exists r1, r2, g1, g2. split; [exact H1|]. split; [exact H2|].
  rewrite P1, P2. apply Permutation_map, players_of_perm, H.
Qed.

Lemma match_order_does_not_matter_witness :
  exists rankings rankings' realm1 realm2,
    calculateRankings
      [ {| winner := js "Thomas"; loser := js "Raymond"; date := js "d1" |};
        {| winner := js "Jerry"; loser := js "Thomas"; date := js "d2" |} ] pristine
    = (Return (rankings,
               [ {| winner := js "Thomas"; loser := js "Raymond"; date := js "d1" |};
                 {| winner := js "Jerry"; loser := js "Thomas"; date := js "d2" |} ]),
       realm1)
    /\ calculateRankings
         [ {| winner := js "Jerry"; loser := js "Thomas"; date := js "d2" |};
           {| winner := js "Thomas"; loser := js "Raymond"; date := js "d1" |} ] pristine
       = (Return (rankings',
                  [ {| winner := js "Jerry"; loser := js "Thomas"; date := js "d2" |};
                    {| winner := js "Thomas"; loser := js "Raymond"; date := js "d1" |} ]),
          realm2)
    /\ Permutation rankings rankings'.
Proof.
  apply (match_order_does_not_matter
           [ {| winner := js "Thomas"; loser := js "Raymond"; date := js "d1" |};
             {| winner := js "Jerry"; loser := js "Thomas"; date := js "d2" |} ]
           [ {| winner := js "Jerry"; loser := js "Thomas"; date := js "d2" |};
             {| winner := js "Thomas"; loser := js "Raymond"; date := js "d1" |} ]
           pristine).
  apply perm_swap.
Defined.

(* ================================================================== *)
(** * What the aggregator writes outside [players] *)

Lemma field_eqb_eq (f g : field) : field_eqb f g = true <-> f = g.
Proof. destruct f, g; simpl; split; congruence. Qed.

Lemma has_NaN_app (r r' : Realm) (o : jsstring) (f : field) :
  has_NaN (r ++ r') o f = has_NaN r o f || has_NaN r' o f.
Proof. unfold has_NaN. apply existsb_app. Qed.

Lemma has_NaN_set_NaN (r : Realm) (o o' : jsstring) (f f' : field) :
  has_NaN (set_NaN r o f) o' f'
  = has_NaN r o' f' || (jsstring_eqb o' o && field_eqb f' f).
Proof.
  unfold set_NaN. destruct (has_NaN r o f) eqn:E.
  - destruct (jsstring_eqb o' o && field_eqb f' f) eqn:E'.
    + apply andb_true_iff in E' as [Eo Ef].
      apply jsstring_eqb_eq in Eo. apply field_eqb_eq in Ef. subst.
      now rewrite E.
    + now rewrite orb_false_r.
  - rewrite has_NaN_app. simpl. now rewrite orb_false_r.
Qed.

Lemma inherited_eqb (o n : jsstring) :
  jsstring_eqb o n = true -> inherited n = inherited o.
Proof. intros H. apply jsstring_eqb_eq in H. now subst. Qed.

Lemma record_match_realm (players : Players) (realm : Realm) (m : Match) :
  own_plain players ->
  record_match players realm m
  = (Return (credited players m),
     let realm1 := if inherited (winner m) then set_NaN realm (winner m) Win else realm in
     if inherited (loser m) then set_NaN realm1 (loser m) Lose else realm1).
Proof.
  intros Hp. unfold record_match, credited.
  rewrite (initialize_realm players realm pristine).
  rewrite (initialize_realm _ realm pristine).
  rewrite increment_known
    by (apply known_initialize_mono, known_initialize).
  rewrite increment_known
    by (rewrite known_update_own; apply known_initialize).
  unfold touch. rewrite own_update_own, !own_initialize, !jsstring_eqb_refl.
  cbv zeta. f_equal.
  assert (Hw : inherited (winner m) = true -> own players (winner m) = None).
  { intros Hi. destruct (own players (winner m)) eqn:E; [|reflexivity].
    apply Hp in E. congruence. }
  assert (Hl : inherited (loser m) = true -> own players (loser m) = None).
  { intros Hi. destruct (own players (loser m)) eqn:E; [|reflexivity].
    apply Hp in E. congruence. }
  destruct (inherited (winner m)), (inherited (loser m));
    rewrite ?Hw, ?Hl by reflexivity; rewrite ?andb_false_r, ?andb_true_r;
    destruct (own players (winner m)), (own players (loser m)),
      (jsstring_eqb (loser m) (winner m)), (jsstring_eqb (winner m) (loser m));
    reflexivity.
Qed.

Lemma forEach_match_realm (matches : list Match) (players : Players) (realm : Realm) :
  own_plain players ->
  exists realm',
    forEach_match matches players realm
    = (Return (fold_left credited matches players), realm')
    /\ forall o f,
         has_NaN realm' o f
         = has_NaN realm o f || (inherited o && (0 <? count_field f o matches)%N).
Proof.
  revert players realm. induction matches as [|m ms IH]; intros players realm Hp.
  - exists realm. split; [reflexivity|]. intros o f.
    destruct f; simpl; now rewrite andb_false_r, orb_false_r.
  - cbn [forEach_match]. rewrite (record_match_realm players realm m Hp). cbv zeta.
    destruct (IH (credited players m)
                 (if inherited (loser m)
                  then set_NaN (if inherited (winner m)
                                then set_NaN realm (winner m) Win else realm)
                               (loser m) Lose
                  else if inherited (winner m)
                       then set_NaN realm (winner m) Win else realm)
                 (own_plain_credited players m Hp)) as (realm' & -> & Hr).
    exists realm'. split; [reflexivity|]. intros o f. rewrite Hr. clear Hr IH.
    destruct f; cbn [count_field]; rewrite ?count_wins_cons, ?count_losses_cons;
      (destruct (jsstring_eqb o (winner m)) eqn:Ew;
       [rewrite (inherited_eqb _ _ Ew) in *|]);
      (destruct (jsstring_eqb o (loser m)) eqn:El;
       [rewrite (inherited_eqb _ _ El) in *|]);
      repeat match goal with
      | |- context [inherited ?x] => destruct (inherited x) eqn:?
      end;
      rewrite ?has_NaN_set_NaN, ?Ew, ?El;
      cbn [field_eqb andb orb];
      rewrite ?andb_false_r, ?orb_false_r, ?andb_true_r;
      repeat match goal with
      | |- context [(0 <? ?x)%N] => destruct (N.ltb_spec 0 x)
      end; try lia;
      rewrite ?orb_true_r, ?orb_false_r; reflexivity.
Qed.

(** X15.  The aggregator writes outside [players] only through names that
    are keys of [Object.prototype]: after the call the builtin reached by
    such a name carries a NaN [win] if it did before or the name won a
    match, a NaN [lose] if it did before or the name lost one.  Nothing
    else of the realm changes. *)
Theorem only_inherited_counters_are_written (matches : list Match) (realm : Realm) :
  exists rankings realm',
    calculateRankings matches realm = (Return (rankings, matches), realm')
    /\ forall object f,
         has_NaN realm' object f
         = has_NaN realm object f
           || (inherited object && (0 <? count_field f object matches)%N).
Proof.
  unfold calculateRankings.
  destruct (forEach_match_realm matches [] realm) as (realm' & -> & Hr).
  { intros k s. discriminate. }
  eexists. exists realm'. split; [reflexivity|exact Hr].
Qed.

(* ================================================================== *)
(** * Percentages that are exact *)

Lemma toFixed1_Qeq (q q' : Q) : q == q' -> toFixed1 (Num q) = toFixed1 (Num q').
Proof.
  intros H. unfold toFixed1.
  assert (E1 : Qle_bool 0 q = Qle_bool 0 q') by now rewrite H.
  rewrite <- E1. destruct (Qle_bool 0 q).
  - assert (E2 : Qle_bool (inject_Z (10 ^ 21)) q = Qle_bool (inject_Z (10 ^ 21)) q')
      by now rewrite H.
    rewrite <- E2. destruct (Qle_bool (inject_Z (10 ^ 21)) q); [reflexivity|].
    assert (E3 : Qfloor (q * inject_Z 10 + (1 # 2)) = Qfloor (q' * inject_Z 10 + (1 # 2)))
      by (apply Qfloor_comp; now rewrite H).
    now rewrite E3.
  - assert (E2 : Qle_bool (inject_Z (10 ^ 21)) (- q) = Qle_bool (inject_Z (10 ^ 21)) (- q'))
      by now rewrite H.
    rewrite <- E2. destruct (Qle_bool (inject_Z (10 ^ 21)) (- q)); [reflexivity|].
    assert (E3 : Qfloor (- q * inject_Z 10 + (1 # 2))
                 = Qfloor (- q' * inject_Z 10 + (1 # 2)))
      by (apply Qfloor_comp; now rewrite H).
    now rewrite E3.
Qed.

(** Equal rates give the same printed percentage. *)
Lemma percentage_of_exact_rate (q v : Q) :
  q == v ->
  toFixed1 (Num (double (double q * double (inject_Z (Z.of_N 100)))))
  = toFixed1 (Num (double (double v * double (inject_Z (Z.of_N 100))))).
Proof.
  intros H. apply toFixed1_Qeq, double_Qeq.
  apply Qmult_comp; [now apply double_Qeq|reflexivity].
Qed.

(** X16.  A player without a loss is shown with 100.0, a player without a
    win with 0.0, and a player with as many wins as losses with 50.0. *)
Theorem exact_percentages (matches : list Match) (realm : Realm) :
  exists rankings realm',
    calculateRankings matches realm = (Return (rankings, matches), realm')
    /\ forall p, In p rankings ->
         (lose p = 0%N -> toFixed1 (mul (winRate p) (of_N 100)) = Some (js "100.0"))
         /\ (win p = 0%N -> toFixed1 (mul (winRate p) (of_N 100)) = Some (js "0.0"))
         /\ (win p = lose p -> toFixed1 (mul (winRate p) (of_N 100)) = Some (js "50.0")).
Proof.
  destruct (calculateRankings_returns matches realm) as (rankings & realm' & H & _ & Hperm).
  exists rankings, realm'. split; [exact H|].
  intros p Hp. apply (Permutation_in _ Hperm), to_stat_entry in Hp
    as (_ & _ & _ & Ht & Hpos & q & Hq & -> & _).
  rewrite Hq. cbn [mul of_N].
  assert (Hnz : ~ inject_Z (Z.of_N (total p)) == 0).
  { intros E. unfold Qeq in E. simpl in E. lia. }
  split; [|split]; intros E.
  - rewrite (percentage_of_exact_rate _ 1); [reflexivity|].
    replace (win p) with (total p) by lia. field. exact Hnz.
  - rewrite (percentage_of_exact_rate _ 0); [reflexivity|].
    rewrite E. change (inject_Z (Z.of_N 0)) with 0%Q. field. exact Hnz.
  - rewrite (percentage_of_exact_rate _ (1 # 2)); [reflexivity|].
    revert Hnz. rewrite Ht, <- E, N2Z.inj_add, inject_Z_plus. intros Hnz.
    field. intros E0. apply Hnz. rewrite E0. reflexivity.
Qed.

(* ================================================================== *)
(** * Files *)



(* ================================================================== *)
(** * Players are entered in the order of their first appearance *)

Lemma own_mem (players : Players) (name : jsstring) :
  mem name (map fst players) = match own players name with Some _ => true | None => false end.
Proof.
  unfold mem. induction players as [|[n s] players IH]; simpl; [reflexivity|].
  destruct (jsstring_eqb name n); simpl; auto.
Qed.

Lemma initialize_add_key (players : Players) (realm : Realm) (name : jsstring) :
  map fst (initialize players realm name) = add_key (map fst players) name.
Proof.
  rewrite initialize_known. unfold add_key, known. rewrite own_mem.
  destruct (own players name); simpl; [reflexivity|].
  destruct (inherited name); [reflexivity|].
  now rewrite map_app.
Qed.

Lemma fold_credited_add_key (matches : list Match) (players : Players) :
  map fst (fold_left credited matches players)
  = fold_left add_key (names_of matches) (map fst players).
Proof.
  revert players. induction matches as [|m ms IH]; intros players; [reflexivity|].
  cbn [fold_left names_of flat_map app]. rewrite IH. f_equal.
  unfold credited. now rewrite !update_own_keys, !initialize_add_key.
Qed.

Lemma filter_twice {T : Type} (f g : T -> bool) (l : list T) :
  filter f (filter g l) = filter (fun x => g x && f x) l.
Proof.
  induction l as [|x l IH]; simpl; [reflexivity|].
  destruct (g x); simpl; [destruct (f x)|]; now rewrite IH.
Qed.

Lemma mem_app (k n : jsstring) (keys : list jsstring) :
  mem k (keys ++ [n]) = mem k keys || jsstring_eqb k n.
Proof. unfold mem. rewrite existsb_app. simpl. now rewrite orb_false_r. Qed.

Lemma fold_add_key (names keys : list jsstring) :
  fold_left add_key names keys
  = keys ++ filter (fun k => negb (mem k keys))
              (first_occurrences (filter (fun n => negb (inherited n)) names)).
Proof.
  revert keys. induction names as [|n names IH]; intros keys; simpl.
  - now rewrite app_nil_r.
  - rewrite IH. unfold add_key.
    destruct (inherited n) eqn:Hi; simpl.
    + now rewrite orb_true_r.
    + rewrite orb_false_r. destruct (mem n keys) eqn:Hm; simpl.
      * f_equal. rewrite filter_twice. apply filter_ext. intros k.
        destruct (jsstring_eqb k n) eqn:E; simpl; [|reflexivity].
        apply jsstring_eqb_eq in E. subst k. now rewrite Hm.
      * rewrite <- app_assoc. simpl.
        f_equal. f_equal. rewrite filter_twice. apply filter_ext. intros k.
        rewrite mem_app, negb_orb. apply andb_comm.
Qed.

Lemma first_occurrences_In (k : jsstring) (names : list jsstring) :
  In k (first_occurrences names) -> In k names.
Proof.
  induction names as [|n names IH]; simpl; [auto|].
  intros [E|H]; [now left|]. apply filter_In in H as [H _]. right. now apply IH.
Qed.

Lemma filter_none {T : Type} (f : T -> bool) (l : list T) :
  (forall x, In x l -> f x = false) ->
  filter f l = [] /\ filter (fun x => negb (f x)) l = l.
Proof.
  induction l as [|x l IH]; simpl; intros H; [auto|].
  rewrite (H x (or_introl eq_refl)). simpl.
  destruct IH as [-> ->]; auto.
Qed.

(** X18.  Players get their entry in [players] in the order of their first
    appearance in the matches, the winner of a match before its loser;
    names that are keys of [Object.prototype] get none.  When no name is
    an array index, [Object.entries] lists the entries in that order, so
    that tied players are ranked by who appeared first. *)
Theorem players_in_order_of_first_appearance (matches : list Match) (realm : Realm) :
  exists players realm',
    forEach_match matches [] realm = (Return players, realm')
    /\ map fst players
       = first_occurrences (filter (fun n => negb (inherited n)) (names_of matches))
    /\ ((forall n, In n (names_of matches) -> is_array_index n = false) ->
        Object_entries players = players).
Proof.
  destruct (forEach_match_returns matches [] realm) as (realm' & H).
  exists (fold_left credited matches []), realm'. split; [exact H|].
  assert (Hkeys : map fst (fold_left credited matches [])
                  = first_occurrences
                      (filter (fun n => negb (inherited n)) (names_of matches))).
  { rewrite fold_credited_add_key, fold_add_key. simpl.
    rewrite (proj2 (filter_none (fun k => mem k []) _ (fun _ _ => eq_refl))).
    reflexivity. }
  split; [exact Hkeys|].
  intros Hidx. unfold Object_entries.
  destruct (filter_none (fun e : jsstring * stats.t => is_array_index (fst e))
              (fold_left credited matches [])) as [-> ->]; [|reflexivity].
  intros [k s] Hin. simpl. apply Hidx.
  apply (in_map fst) in Hin. rewrite Hkeys in Hin.
  apply first_occurrences_In, filter_In in Hin. tauto.
Qed.
